(** * Text tag: offset mapping, word alignment, selection capture and region
      materialization (src/tags/object/Text.js)

    A shallow embedding of the functions of [Text.js] that translate between
    global character offsets and positions in the rendered DOM tree, together
    with the properties of these functions. *)

From Stdlib Require Import ZArith List String Ascii Bool Lia.
Import ListNotations.
Local Open Scope string_scope.
Local Open Scope Z_scope.
Local Set Warnings "-register-all".

(** ** The rendered DOM tree *)

(** A DOM node as [findNode] sees it.  A text node has [nodeName] "#text",
    a [length] (the number of characters of its data) and no children; any
    other node is an element with a tag name ([nodeName], upper case, so never
    "#text") and its [childNodes]. *)
Inductive node : Type :=
| Text (data : string)
| Elem (nodeName : string) (childNodes : list node).

(** A node of the tree is designated by the child indices that lead to it from
    the root: node identity, as the DOM has it, is the place in the tree. *)
Definition path := list nat.

Definition strlen (s : string) : Z := Z.of_nat (String.length s).

Definition isBR (name : string) : bool := String.eqb name "BR".

(** Induction on nodes, with the hypothesis for every child. *)
Section NodeInd.
Variable P : node -> Prop.
Hypothesis HText : forall s, P (Text s).
Hypothesis HElem : forall name cs, Forall P cs -> P (Elem name cs).

Fixpoint node_induction (n : node) : P n :=
  match n with
  | Text s => HText s
  | Elem name cs =>
      HElem name cs
        ((fix all (l : list node) : Forall P l :=
            match l with
            | [] => Forall_nil P
            | c :: l' => Forall_cons c (node_induction c) (all l')
            end) cs)
  end.
End NodeInd.

(** ** findNode (Text.js, _handleUpdate, lines 352-377) *)

(** The outcome of [traverse] on one node: either the result object
    [{ node, left }], or [undefined] together with the value the closure
    variable [left] has when the call returns. *)
Inductive scan : Type :=
| Found (p : path) (left : Z)
| Continue (left : Z).

(** [traverse]; the inner loop is
    [for (i = 0; i <= node.childNodes.length; i++)], whose extra iteration at
    [i = length] reads [undefined] and is skipped by [if (n)]. *)
Fixpoint traverse (n : node) (left : Z) : scan :=
  match n with
  | Text s =>
      if left - strlen s <=? 0 then Found [] left
      else Continue (left - strlen s)
  | Elem name cs =>
      let loop :=
        fix loop (cs : list node) (i : nat) (left : Z) : scan :=
          match cs with
          | [] => Continue left
          | c :: cs' =>
              match traverse c left with
              | Found p l => Found (i :: p) l
              | Continue left' => loop cs' (S i) left'
              end
          end in
      if isBR name then
        if left - 1 <? 0 then Found [] left
        else loop cs 0%nat (left - 1)
      else loop cs 0%nat left
  end.

(** The children loop of [traverse], from child index [i] on. *)
Fixpoint traverseChildren (cs : list node) (i : nat) (left : Z) : scan :=
  match cs with
  | [] => Continue left
  | c :: cs' =>
      match traverse c left with
      | Found p l => Found (i :: p) l
      | Continue left' => traverseChildren cs' (S i) left'
      end
  end.

(** [findNode(el, pos)]: the object [{ node, left }] or [undefined]. *)
Definition findNode (el : node) (pos : Z) : option (path * Z) :=
  match traverse el pos with
  | Found p l => Some (p, l)
  | Continue _ => None
  end.

(** ** Global offsets *)

(** What a subtree contributes to a global offset: a text node its length, a
    line-break element 1, and every element what its children contribute. *)
Fixpoint textLength (n : node) : Z :=
  match n with
  | Text s => strlen s
  | Elem name cs =>
      (if isBR name then 1 else 0)
      + (fix sum (cs : list node) : Z :=
           match cs with
           | [] => 0
           | c :: cs' => textLength c + sum cs'
           end) cs
  end.

Definition textLengths (cs : list node) : Z :=
  fold_right (fun c acc => textLength c + acc) 0 cs.

(** The flat text of a subtree, a line-break element standing for one
    newline character. *)
Definition newline : string := String (ascii_of_nat 10) EmptyString.

Fixpoint flatText (n : node) : string :=
  match n with
  | Text s => s
  | Elem name cs =>
      ((if isBR name then newline else "")
      ++ (fix cat (cs : list node) : string :=
            match cs with
            | [] => ""
            | c :: cs' => flatText c ++ cat cs'
            end) cs)%string
  end.

(** Modelled from the spec: [Utils.HTML.toGlobalOffset(root, node, localOffset)]
    is not in the source.  Section 4.1: a pre-order traversal of the root's
    descendants up to and including [node]; a text node contributes its full
    length unless it is [node], in which case only [localOffset] characters are
    added; a line-break element contributes 1 when passed over and exactly
    [localOffset] when it is itself the target.  Another element reached as
    the target adds nothing.  [None] when the path designates no node. *)
Fixpoint toGlobalOffset (root : node) (target : path) (localOffset : Z)
  : option Z :=
  match target with
  | [] =>
      match root with
      | Text _ => Some localOffset
      | Elem name _ => Some (if isBR name then localOffset else 0)
      end
  | i :: target' =>
      match root with
      | Text _ => None
      | Elem name cs =>
          match nth_error cs i with
          | None => None
          | Some c =>
              match toGlobalOffset c target' localOffset with
              | None => None
              | Some g =>
                  Some ((if isBR name then 1 else 0)
                        + textLengths (firstn i cs) + g)
              end
          end
      end
  end.

(** The node a path designates. *)
Fixpoint nodeAt (root : node) (p : path) : option node :=
  match p with
  | [] => Some root
  | i :: p' =>
      match root with
      | Text _ => None
      | Elem _ cs =>
          match nth_error cs i with
          | None => None
          | Some c => nodeAt c p'
          end
      end
  end.

(** ** JavaScript values, completions and strings *)

(** The errors a call can end with. *)
Inductive exn : Type :=
| TypeError
| IndexSizeError
| Raised (name : string).

(** How a call ends: with a value, or by throwing. *)
Inductive completion (A : Type) : Type :=
| Normal (a : A)
| Throw (e : exn).
Arguments Normal {A} a.
Arguments Throw {A} e.

Definition bind {A B : Type} (c : completion A) (f : A -> completion B)
  : completion B :=
  match c with
  | Normal a => f a
  | Throw e => Throw e
  end.

Notation "x <- c ;; k" := (bind c (fun x => k))
  (at level 61, c at next level, right associativity).

(** [s.substring(a, b)]: both indices are clamped to [0, s.length] and
    swapped when the first is the larger. *)
Definition clamp (s : string) (i : Z) : Z := Z.max 0 (Z.min i (strlen s)).

Definition substring (s : string) (a b : Z) : string :=
  let a' := clamp s a in
  let b' := clamp s b in
  let lo := Z.min a' b' in
  let hi := Z.max a' b' in
  String.substring (Z.to_nat lo) (Z.to_nat (hi - lo)) s.

(** [s.indexOf(c)] and [s.lastIndexOf(c)] for a one-character pattern:
    the index of the first (last) occurrence, or -1. *)
Fixpoint indexOfFrom (c : ascii) (s : string) (i : Z) : Z :=
  match s with
  | EmptyString => -1
  | String a s' => if Ascii.eqb a c then i else indexOfFrom c s' (i + 1)
  end.

Definition indexOf (s : string) (c : ascii) : Z := indexOfFrom c s 0.

Fixpoint lastIndexOfFrom (c : ascii) (s : string) (i : Z) (found : Z) : Z :=
  match s with
  | EmptyString => found
  | String a s' =>
      lastIndexOfFrom c s' (i + 1) (if Ascii.eqb a c then i else found)
  end.

Definition lastIndexOf (s : string) (c : ascii) : Z :=
  lastIndexOfFrom c s 0 (-1).

Definition space : ascii := " "%char.
Definition lf : ascii := ascii_of_nat 10.

(** ** DOM ranges *)

(** A boundary point is a node and an offset in it; a range has two. *)
Record Range : Type := mkRange {
  startContainer : path;
  startOffset : Z;
  endContainer : path;
  endOffset : Z
}.

(** The DOM's length of a node: the number of characters of a text node, the
    number of children of an element. *)
Definition nodeLength (n : node) : Z :=
  match n with
  | Text s => strlen s
  | Elem _ cs => Z.of_nat (List.length cs)
  end.

(** The [length] property, which only text nodes have; an offset argument
    that is [undefined] is converted to 0. *)
Definition lengthProp (n : node) : Z :=
  match n with
  | Text s => strlen s
  | Elem _ _ => 0
  end.

(** The DOM's order of boundary points: a point in an ancestor is before the
    points inside its child number [c] exactly when its offset is at most
    [c]. *)
Fixpoint bpCompare (p : path) (o : Z) (q : path) (o' : Z) : comparison :=
  match p, q with
  | [], [] => o ?= o'
  | [], c :: _ => if o <=? Z.of_nat c then Lt else Gt
  | c :: _, [] => if o' <=? Z.of_nat c then Gt else Lt
  | c :: p', d :: q' =>
      match Nat.compare c d with
      | Eq => bpCompare p' o q' o'
      | other => other
      end
  end.

(** [range.setStart(node, offset)] and [range.setEnd(node, offset)] on the
    tree [root]: an offset outside [0, length of the node] throws an
    IndexSizeError (a negative number is converted to an unsigned one far
    above every length); a start set after the end moves the end to it, an end
    set before the start moves the start to it.  Setting a boundary to
    [undefined] is a TypeError. *)
Definition checkBoundary (root : node) (p : path) (o : Z) : completion unit :=
  match nodeAt root p with
  | None => Throw TypeError
  | Some n =>
      if (0 <=? o) && (o <=? nodeLength n) then Normal tt
      else Throw IndexSizeError
  end.

Definition setStart (root : node) (r : Range) (p : path) (o : Z)
  : completion Range :=
  _ <- checkBoundary root p o ;;
  Normal (match bpCompare p o (endContainer r) (endOffset r) with
          | Gt => mkRange p o p o
          | _ => mkRange p o (endContainer r) (endOffset r)
          end).

Definition setEnd (root : node) (r : Range) (p : path) (o : Z)
  : completion Range :=
  _ <- checkBoundary root p o ;;
  Normal (match bpCompare p o (startContainer r) (startOffset r) with
          | Lt => mkRange p o p o
          | _ => mkRange (startContainer r) (startOffset r) p o
          end).

(** The global offsets of the two boundary points of a range. *)
Definition globalOffsets (root : node) (r : Range) : option (Z * Z) :=
  match toGlobalOffset root (startContainer r) (startOffset r),
        toGlobalOffset root (endContainer r) (endOffset r) with
  | Some s, Some e => Some (s, e)
  | _, _ => None
  end.

(** ** alignWord and alignRange (Text.js, lines 204-274) *)

(** Modelled from the spec: [Utils.HTML.findIdxContainer(idx)] is not in the
    source.  Section 4.2: the aligned index "is translated back into a DOM
    Range using OffsetMapper.resolveOffset", the traversal that [findNode]
    implements; the result is the object [{ node, len }].  Destructuring a
    missing result is a TypeError. *)
Definition findIdxContainer (root : node) (idx : Z) : completion (path * Z) :=
  match findNode root idx with
  | Some nl => Normal nl
  | None => Throw TypeError
  end.

(** The start boundary of [alignWord] (lines 206-223). *)
Definition alignStart (root : node) (val : string) (r r2 : Range) (start : Z)
  : completion Range :=
  let strleft := substring val 0 start in
  if strlen strleft >? 0 then
    let idxSpace := lastIndexOf strleft space in
    let idxNewline := lastIndexOf strleft lf in
    let idx := if idxSpace >? idxNewline then idxSpace else idxNewline in
    r2 <- (if idx =? -1 then setStart root r2 (startContainer r) 0
           else Normal r2) ;;
    if idx >? 0 then
      nl <- findIdxContainer root (idx + 1) ;;
      setStart root r2 (fst nl) (snd nl)
    else Normal r2
  else Normal r2.

(** The index the end boundary is moved to (lines 228-240).  [None] is the
    value of [idx] when no branch assigns it: [undefined], and [NaN] after
    [idx = idx + end]; every comparison with it is false. *)
Definition endIndex (strright : string) (end_ : Z) : option Z :=
  let idxSpace := indexOf strright space in
  let idxNewline := indexOf strright lf in
  let idx0 : option Z := None in
  let idx1 := if idxNewline =? -1 then Some idxSpace else idx0 in
  let idx2 := if idxSpace =? -1 then Some idxNewline else idx1 in
  let idx3 :=
    if (idxNewline >? 0) && (idxSpace >? 0) then
      Some (if idxSpace >? idxNewline then idxNewline else idxSpace)
    else idx2 in
  option_map (fun i => i + end_) idx3.

(** The end boundary of [alignWord] (lines 225-250). *)
Definition alignEnd (root : node) (val : string) (r r2 : Range) (end_ : Z)
  : completion Range :=
  let strright := substring val end_ (strlen val) in
  if strlen strright >? 0 then
    match endIndex strright end_ with
    | None => Normal r2
    | Some idx =>
        r2 <- (if idx =? -1 then
                 match nodeAt root (endContainer r) with
                 | None => Throw TypeError
                 | Some n => setEnd root r2 (endContainer r) (lengthProp n)
                 end
               else Normal r2) ;;
        if idx >? 0 then
          nl <- findIdxContainer root (idx + 1) ;;
          setEnd root r2 (fst nl) (snd nl - 1)
        else Normal r2
    end
  else Normal r2.

(** [alignWord(r, start, end)]; [val] is [this.getValue()] and [r2] starts as
    [r.cloneRange()]. *)
Definition alignWord (root : node) (val : string) (r : Range) (start end_ : Z)
  : completion Range :=
  r2 <- alignStart root val r r start ;;
  alignEnd root val r r2 end_.

Inductive granularity : Type := symbol | word | sentence | paragraph.

(** [alignRange(r)]: [Normal None] is the value [undefined] that falling off
    the end of the function returns.  [offsets] is the result of
    [Utils.HTML.mainOffsets(this.myRef)], the global offsets of the
    selection. *)
Definition alignRange (g : granularity) (root : node) (val : string)
    (offsets : Z * Z) (r : Range) : completion (option Range) :=
  match g with
  | symbol => Normal (Some r)
  | word =>
      r2 <- alignWord root val r (fst offsets) (snd offsets) ;;
      Normal (Some r2)
  | sentence => Normal None
  | paragraph => Normal None
  end.

(** ** The model: label states, regions, the text object *)

(** A JavaScript value held by a field of a serialized or stored region: a
    number, a string that is not a numeral (a node path, a text, the empty
    string), or [undefined]. *)
Inductive jsval : Type :=
| JNum (z : Z)
| JStr (s : string)
| JUndefined.

(** A control tag attached to the text object; [typeName] is
    [getType(s).name]. *)
Record LabelState : Type := mkState {
  typeName : string;
  isSelected : bool
}.

Module Region.
(** A [TextRegionModel] instance with the fields [createRegion] gives it. *)
Record t : Type := mk {
  pid : jsval;
  startOffset : jsval;
  endOffset : jsval;
  start : jsval;
  end_ : jsval;
  text : jsval;
  states : list LabelState;
  _range : option Range
}.

Definition setRange (r : t) (range : Range) : t :=
  mk (pid r) (startOffset r) (endOffset r) (start r) (end_ r) (text r)
     (states r) (Some range).
End Region.

Module Normed.
(** The object [captureDocumentSelection] pushes: the result of
    [xpath.fromRange] (the node paths [start] and [end]) with the fields the
    function assigns. *)
Record t : Type := mk {
  start : string;
  end_ : string;
  _range : Range;
  text : string;
  startOffset : Z;
  endOffset : Z
}.
End Normed.

(** The text object: the attributes of the tag, its regions, and the control
    tags [states()] finds for it ([None] when there are none registered). *)
Record Item : Type := mkItem {
  selectionenabled : bool;
  granularityOf : granularity;
  regions : list Region.t;
  statesOf : option (list LabelState)
}.

Definition withRegions (item : Item) (rs : list Region.t) : Item :=
  mkItem (selectionenabled item) (granularityOf item) rs (statesOf item).

Definition withStates (item : Item) (ss : option (list LabelState)) : Item :=
  mkItem (selectionenabled item) (granularityOf item) (regions item) ss.

(** The platform selection: [isCollapsed], the ranges [getRangeAt(i)] for
    [i < rangeCount], and [toString()]. *)
Record Selection : Type := mkSelection {
  isCollapsed : bool;
  ranges : list Range;
  selText : string
}.

Definition removeAllRanges (sel : Selection) : Selection :=
  mkSelection true [] "".

(** The collaborators of [Text.js] that are imported from elsewhere:
    [xpath.fromRange] (the node paths of the two boundaries),
    [splitBoundaries] (splits the text nodes at the boundaries of a range,
    giving the tree and the range after the split),
    [Utils.HTML.mainOffsets], and [createSpans] followed by
    [addEventsToSpans] (wraps the nodes of a region's range, giving the tree
    after it). *)
Record Externals : Type := mkExternals {
  fromRange : Range -> node -> completion (string * string);
  splitBoundaries : node -> Range -> completion (node * Range);
  mainOffsets : node -> Z * Z;
  createSpans : node -> Region.t -> node
}.

Definition isActive (s : LabelState) : bool :=
  isSelected s
  && (String.eqb (typeName s) "LabelsModel"
      || String.eqb (typeName s) "RatingModel").

(** [activeStates()]: [null] when [states()] finds nothing. *)
Definition activeStates (item : Item) : option (list LabelState) :=
  option_map (filter isActive) (statesOf item).

(** [createRegion(p)]: the new region is pushed to [regions]. *)
Definition createRegion (item : Item) (p : Region.t) : Item * Region.t :=
  (withRegions item (regions item ++ [p]), p).

(** [s.unselectAll()] on every active state. *)
Definition unselectAll (s : LabelState) : LabelState :=
  if isActive s then mkState (typeName s) false else s.

(** [addRegion(range)]: [Normal None] is the bare [return] when no state is
    active; reading [states.length] of [null] is a TypeError. *)
Definition addRegion (item : Item) (range : Normed.t)
  : completion (Item * option Region.t) :=
  match activeStates item with
  | None => Throw TypeError
  | Some states =>
      if Nat.eqb (List.length states) 0 then Normal (item, None)
      else
        let p := Region.mk JUndefined
                   (JNum (Normed.startOffset range))
                   (JNum (Normed.endOffset range))
                   (JStr (Normed.start range))
                   (JStr (Normed.end_ range))
                   (JStr (Normed.text range))
                   states
                   (Some (Normed._range range)) in
        let '(item1, r) := createRegion item p in
        Normal (withStates item1 (option_map (map unselectAll) (statesOf item1)),
                Some r)
  end.

(** ** fromStateJSON (Text.js, lines 148-174) *)

(** [obj.value] of a serialized region. *)
Record SerializedValue : Type := mkValue {
  v_start : jsval;
  v_startOffset : jsval;
  v_end : jsval;
  v_endOffset : jsval;
  v_text : jsval
}.

Record Serialized : Type := mkSerialized {
  s_id : jsval;
  s_from_name : string;
  s_normalization : jsval;
  s_value : SerializedValue
}.

(** The control tag a serialized region comes from: its [type], and the state
    [restoreNewsnapshot(fromModel)] makes of it once [fromStateJSON(obj)] has
    run on that state. *)
Record FromModel : Type := mkFromModel {
  fm_type : string;
  fm_restored : LabelState
}.

(** The object [tree] handed to [createRegion]. *)
Definition restoreTree (obj : Serialized) (fromModel : FromModel) : Region.t :=
  let v := s_value obj in
  Region.mk (s_id obj) (v_start v) (v_end v) (JStr "") (JStr "") (v_text v)
            [fm_restored fromModel] None.

(** [fromStateJSON(obj, fromModel)]: a textarea or choices result is handed
    to its own tag and the text object is left as it is. *)
Definition fromStateJSON (item : Item) (obj : Serialized) (fromModel : FromModel)
  : Item :=
  if String.eqb (fm_type fromModel) "textarea"
     || String.eqb (fm_type fromModel) "choices"
  then item
  else fst (createRegion item (restoreTree obj fromModel)).

(** ** captureDocumentSelection and onMouseUp (Text.js, lines 276-344) *)

Definition nodeNameOf (n : node) : string :=
  match n with
  | Text _ => "#text"
  | Elem name _ => name
  end.

(** Lines 287-289: a range that ends in a DIV is cut at the end of its start
    container.  Ranges are positions in the tree under the root. *)
Definition clampEnd (root : node) (r : Range) : completion Range :=
  match nodeAt root (endContainer r) with
  | Some n =>
      if String.eqb (nodeNameOf n) "DIV" then
        match nodeAt root (startContainer r) with
        | Some m => setEnd root r (startContainer r) (lengthProp m)
        | None => Throw TypeError
        end
      else Normal r
  | None => Normal r
  end.

(** The body of the [try] block (lines 294-312) for the aligned range [r].
    When [alignRange] gave [undefined] the block throws a TypeError, at the
    latest when it reads [r.startContainer]. *)
Definition normalize (ext : Externals) (root : node) (text : string)
    (r : option Range) : completion (node * Normed.t) :=
  match r with
  | None => Throw TypeError
  | Some r =>
      xp <- fromRange ext r root ;;
      split <- splitBoundaries ext root r ;;
      let root' := fst split in
      let r' := snd split in
      match toGlobalOffset root' (startContainer r') (startOffset r'),
            toGlobalOffset root' (endContainer r') (endOffset r') with
      | Some ss, Some ee =>
          Normal (root', Normed.mk (fst xp) (snd xp) r' text ss ee)
      | _, _ => Throw TypeError
      end
  end.

(** The loop over the ranges of the selection: [alignRange] runs outside the
    [try], so what it throws ends the whole function; what the [try] block
    throws is swallowed by the empty [catch] and the loop goes on. *)
Fixpoint captureLoop (ext : Externals) (g : granularity) (val text : string)
    (root : node) (rs : list Range) (acc : list Normed.t)
  : completion (list Normed.t * node) :=
  match rs with
  | [] => Normal (acc, root)
  | r :: rs' =>
      r1 <- clampEnd root r ;;
      r2 <- alignRange g root val (mainOffsets ext root) r1 ;;
      match normalize ext root text r2 with
      | Normal (root', n) => captureLoop ext g val text root' rs' (acc ++ [n])
      | Throw _ => captureLoop ext g val text root rs' acc
      end
  end.

(** [captureDocumentSelection()]: the captured ranges, the tree and the
    selection afterwards. *)
Definition captureDocumentSelection (ext : Externals) (item : Item)
    (val : string) (root : node) (sel : Selection)
  : completion (list Normed.t * node * Selection) :=
  if isCollapsed sel then Normal ([], root, sel)
  else
    out <- captureLoop ext (granularityOf item) val (selText sel) root
             (ranges sel) [] ;;
    Normal (fst out, snd out, removeAllRanges sel).

(** What a mouse-up leaves: the text object, the tree, the selection, and
    whether [ev.nativeEvent.doSelection] was set. *)
Record MouseUp : Type := mkMouseUp {
  m_item : Item;
  m_root : node;
  m_selection : Selection;
  m_doSelection : bool
}.

(** [onMouseUp(ev)]. *)
Definition onMouseUp (ext : Externals) (item : Item) (val : string)
    (root : node) (sel : Selection) : completion MouseUp :=
  if negb (selectionenabled item) then Normal (mkMouseUp item root sel false)
  else
    cap <- captureDocumentSelection ext item val root sel ;;
    let selectedRanges := fst (fst cap) in
    let root1 := snd (fst cap) in
    let sel1 := snd cap in
    match activeStates item, selectedRanges with
    | None, _ => Normal (mkMouseUp item root1 sel1 false)
    | Some [], _ => Normal (mkMouseUp item root1 sel1 false)
    | Some _, [] => Normal (mkMouseUp item root1 sel1 false)
    | Some _, first :: _ =>
        added <- addRegion item first ;;
        match snd added with
        | None => Throw TypeError
        | Some htxRange =>
            Normal (mkMouseUp (fst added) (createSpans ext root1 htxRange)
                              sel1 true)
        end
    end.

(** ** _handleUpdate (Text.js, lines 346-396) *)

(** [findNode(root, r.startOffset)] for the value a region holds: arithmetic
    on [undefined] or on a string that is no numeral gives [NaN], every test
    of [traverse] is then false and the result is [undefined]. *)
Definition findNodeOf (root : node) (v : jsval) : option (path * Z) :=
  match v with
  | JNum z => findNode root z
  | _ => None
  end.

(** The body of the [forEach] for one region.  A fresh range lies at the
    start of the document, before every position under the root, so
    [setStart] moves both of its boundaries; reading [ss.node] or [ee.node]
    of [undefined] is a TypeError. *)
Definition materialize (ext : Externals) (root : node) (r : Region.t)
  : completion (Region.t * node) :=
  let ss := findNodeOf root (Region.startOffset r) in
  let ee := findNodeOf root (Region.endOffset r) in
  match ss with
  | None => Throw TypeError
  | Some (sn, sl) =>
      _ <- checkBoundary root sn sl ;;
      match ee with
      | None => Throw TypeError
      | Some (en, el) =>
          range <- setEnd root (mkRange sn sl sn sl) en el ;;
          split <- splitBoundaries ext root range ;;
          let r' := Region.setRange r (snd split) in
          Normal (r', createSpans ext (fst split) r')
      end
  end.

(** [item.regions.forEach(...)]: nothing catches what the body throws, so the
    first region whose body throws ends the pass.  The result is the regions
    and the tree as the pass leaves them, and the exception that ended it, if
    one did. *)
Fixpoint handleUpdate (ext : Externals) (root : node) (rs : list Region.t)
  : list Region.t * node * option exn :=
  match rs with
  | [] => ([], root, None)
  | r :: rs' =>
      match materialize ext root r with
      | Normal (r', root') =>
          let '(out, root'', e) := handleUpdate ext root' rs' in
          (r' :: out, root'', e)
      | Throw e => (r :: rs', root, Some e)
      end
  end.

(** ** Notions the properties are stated with *)

(** The last text or line-break node of a subtree in traversal order:
    [Some true] for a text node, [Some false] for a line break, [None] when
    the subtree has neither. *)
Fixpoint lastLeaf (n : node) : option bool :=
  match n with
  | Text _ => Some true
  | Elem name cs =>
      match (fix last (cs : list node) : option bool :=
               match cs with
               | [] => None
               | c :: cs' =>
                   match last cs' with
                   | Some b => Some b
                   | None => lastLeaf c
                   end
               end) cs with
      | Some b => Some b
      | None => if isBR name then Some false else None
      end
  end.

Fixpoint lastLeafIn (cs : list node) : option bool :=
  match cs with
  | [] => None
  | c :: cs' =>
      match lastLeafIn cs' with
      | Some b => Some b
      | None => lastLeaf c
      end
  end.



(** A root as [render] makes it: a DIV whose children are the given nodes. *)
Definition div (cs : list node) : node := Elem "DIV" cs.
Definition br : node := Elem "BR" [].

(** The text "ab", a line break at its end. *)
Definition rootAbBr : node := div [Text "ab"; br].
(** The text "ab", a line break, "cd". *)
Definition valAbCd : string := ("ab" ++ newline ++ "cd")%string.
Definition rootAbCd : node := div [Text "ab"; br; Text "cd"].
(** The text of the word alignment example, in one node and in two. *)
Definition valFox : string := "the quick brown fox".
Definition rootFox : node := div [Text valFox].
Definition rootFox2 : node := div [Text "the qui"; Text "ck brown fox"].

(** Collaborators that leave the tree as it is: [xpath.fromRange] gives empty
    node paths, [splitBoundaries] finds nothing to split, no selection
    offsets, no spans. *)
Definition plainExternals : Externals :=
  mkExternals (fun _ _ => Normal ("", ""))
              (fun root r => Normal (root, r))
              (fun _ => (0, 0))
              (fun root _ => root).

(** The same, with an [xpath.fromRange] that rejects the ranges that do not
    start in the first child of the root. *)
Definition strictExternals : Externals :=
  mkExternals (fun r _ =>
                 match startContainer r with
                 | 0%nat :: _ => Normal ("", "")
                 | _ => Throw (Raised "RangeError")
                 end)
              (fun root r => Normal (root, r))
              (fun _ => (0, 0))
              (fun root _ => root).

(** A stored region from [startOffset] to [endOffset], not yet attached to a
    range. *)
Definition storedRegion (s e : Z) : Region.t :=
  Region.mk JUndefined (JNum s) (JNum e) (JStr "") (JStr "") (JStr "") [] None.

(** A text object with one selected Labels tag. *)
Definition labelled (g : granularity) : Item :=
  mkItem true g [] (Some [mkState "LabelsModel" true]).

(** A selection of two ranges over "ab", line break, "cd": "a" and "cd". *)
Definition twoRanges : Selection :=
  mkSelection false
    [mkRange [0%nat] 0 [0%nat] 1; mkRange [2%nat] 0 [2%nat] 2] "acd".

(** A serialized region whose [start] and [end] are node paths. *)
Definition savedWithPaths : Serialized :=
  mkSerialized (JStr "r1") "label" JUndefined
    (mkValue (JStr "/p[1]/text()[1]") (JNum 7) (JStr "/p[1]/text()[1]")
             (JNum 9) (JStr "ab")).

Definition labelsModel : FromModel :=
  mkFromModel "labels" (mkState "LabelsModel" true).

(** The claimed outcome of an alignment that is not supported. *)
Definition UnsupportedGranularityError : exn :=
  Raised "UnsupportedGranularityError".

(** A region is materialized when it is attached to a range. *)
Definition materialized (r : Region.t) : Prop := Region._range r <> None.

(** A position of the tree as the traversal returns them: in a text node,
    from its start to its end, or at a line-break element with offset 0. *)
Definition validPos (root : node) (p : path) (o : Z) : Prop :=
  match nodeAt root p with
  | Some (Text s) => 0 <= o <= strlen s
  | Some (Elem name _) => isBR name = true /\ o = 0
  | None => False
  end.

(** The flat text of a list of children. *)
Definition flatTexts (cs : list node) : string :=
  fold_right (fun c acc => (flatText c ++ acc)%string) "" cs.

(** [s[i]]: the character at index [i], if there is one. *)
Definition charAt (s : string) (i : Z) : option ascii :=
  if i <? 0 then None else String.get (Z.to_nat i) s.

(** A range whose two boundaries are such positions. *)
Definition validRange (root : node) (r : Range) : Prop :=
  validPos root (startContainer r) (startOffset r) /\
  validPos root (endContainer r) (endOffset r).

(** The index [alignStart] takes: the larger of the two searches. *)
Definition startIndex (strleft : string) : Z :=
  let idxSpace := lastIndexOf strleft space in
  let idxNewline := lastIndexOf strleft lf in
  if idxSpace >? idxNewline then idxSpace else idxNewline.

(** The characters word alignment stops at. *)
Definition isSeparator (c : ascii) : Prop := c = space \/ c = lf.

(** ** findRegion (Text.js, lines 85-90) *)

(** [a === b] on the values region fields hold. *)
Definition strictEq (a b : jsval) : bool :=
  match a, b with
  | JNum x, JNum y => x =? y
  | JStr s, JStr t => String.eqb s t
  | JUndefined, JUndefined => true
  | _, _ => false
  end.

(** [findRegion(start, startOffset, end, endOffset)]: the first region whose
    four fields are the given values, or [undefined]. *)
Definition findRegion (item : Item) (start startOffset end_ endOffset : jsval)
  : option Region.t :=
  find (fun r =>
          strictEq (Region.start r) start && strictEq (Region.end_ r) end_
          && strictEq (Region.startOffset r) startOffset
          && strictEq (Region.endOffset r) endOffset)
       (regions item).

(** What a region persists: all of its fields but the range it is attached
    to. *)
Definition regionData (r : Region.t)
  : jsval * jsval * jsval * jsval * jsval * jsval * list LabelState :=
  (Region.pid r, Region.startOffset r, Region.endOffset r, Region.start r,
   Region.end_ r, Region.text r, Region.states r).

(** A region whose offsets are numbers within the text of the tree, in
    order. *)
Definition inText (root : node) (r : Region.t) : Prop :=
  exists s e,
    Region.startOffset r = JNum s /\ Region.endOffset r = JNum e /\
    0 <= s <= e /\ e < textLength root.

(** Collaborators that keep the text: [splitBoundaries] does not throw and
    neither it nor [createSpans] changes what the tree contributes to global
    offsets. *)
Definition keepsText (ext : Externals) : Prop :=
  (forall root r, exists root' r',
      splitBoundaries ext root r = Normal (root', r') /\
      textLength root' = textLength root) /\
  (forall root r, textLength (createSpans ext root r) = textLength root).

(** Collaborators as [plainExternals], with the given selection offsets. *)
Definition offsetExternals (start end_ : Z) : Externals :=
  mkExternals (fun _ _ => Normal ("", ""))
              (fun root r => Normal (root, r))
              (fun _ => (start, end_))
              (fun root _ => root).

(** A region with the four fields [findRegion] compares. *)
Definition sameKey (start startOffset end_ endOffset : jsval) (r : Region.t)
  : Prop :=
  Region.start r = start /\ Region.end_ r = end_ /\
  Region.startOffset r = startOffset /\ Region.endOffset r = endOffset.


(** The text "abcd" in two nodes. *)
Definition rootAbcdSplit : node := div [Text "ab"; Text "cd"].

(** ** render (Text.js, lines 406-430) *)

(** [s.split(c)] for a one-character separator: the pieces between the
    occurrences of [c], at least one. *)
Fixpoint split (c : ascii) (s : string) : list string :=
  match s with
  | EmptyString => [EmptyString]
  | String a s' =>
      if Ascii.eqb a c then EmptyString :: split c s'
      else
        match split c s' with
        | seg :: rest => String a seg :: rest
        | [] => [String a EmptyString]
        end
  end.

(** [l.join(sep)]. *)
Fixpoint join (sep : string) (l : list string) : string :=
  match l with
  | [] => EmptyString
  | [x] => x
  | x :: rest => (x ++ sep ++ join sep rest)%string
  end.

(** The markup [render] hands to the DIV:
    [val.split("\n").join("<br/>")]. *)
Definition renderMarkup (val : string) : string :=
  join "<br/>" (split lf val).

(** A text without markup of its own: no "<", no "&", and no carriage
    return or NUL, which the HTML parser would replace. *)
Definition isPlain (val : string) : bool :=
  (fix go (s : string) : bool :=
     match s with
     | EmptyString => true
     | String a s' =>
         negb (Ascii.eqb a "<"%char || Ascii.eqb a "&"%char
               || Ascii.eqb a (ascii_of_nat 13) || Ascii.eqb a zero)
         && go s'
     end) val.

(** The children the browser gives the DIV for the markup of pieces without
    markup of their own: one text node for each piece that is not empty, and
    a BR element for each "<br/>" between two pieces. *)
Fixpoint renderedChildren (pieces : list string) : list node :=
  match pieces with
  | [] => []
  | x :: rest =>
      (match x with EmptyString => [] | _ => [Text x] end)
      ++ match rest with
         | [] => []
         | _ => br :: renderedChildren rest
         end
  end.

(** The root [render] produces for a plain text; a text with markup of its
    own is rendered as the HTML it contains, which is not described here. *)
Definition renderRoot (val : string) : option node :=
  if isPlain val then Some (div (renderedChildren (split lf val))) else None.

(** The last character of a string. *)
Fixpoint lastChar (s : string) : option ascii :=
  match s with
  | EmptyString => None
  | String a s' =>
      match s' with
      | EmptyString => Some a
      | _ => lastChar s'
      end
  end.

(** The number of occurrences of a character. *)
Fixpoint countChar (c : ascii) (s : string) : Z :=
  match s with
  | EmptyString => 0
  | String a s' => (if Ascii.eqb a c then 1 else 0) + countChar c s'
  end.

(** The text "a b", a line break, "cd". *)
Definition valWords : string := ("a b" ++ newline ++ "cd")%string.
Definition rootWords : node := div [Text "a b"; br; Text "cd"].

(** * Properties *)

(** ** Unfolding the traversals *)

Lemma traverse_Elem name cs left :
  traverse (Elem name cs) left =
  if isBR name then
    if left - 1 <? 0 then Found [] left
    else traverseChildren cs 0%nat (left - 1)
  else traverseChildren cs 0%nat left.
Proof. reflexivity. Qed.

Lemma textLength_Elem name cs :
  textLength (Elem name cs) = (if isBR name then 1 else 0) + textLengths cs.
Proof. reflexivity. Qed.

Lemma lastLeaf_Elem name cs :
  lastLeaf (Elem name cs) =
  match lastLeafIn cs with
  | Some b => Some b
  | None => if isBR name then Some false else None
  end.
Proof. reflexivity. Qed.


Lemma strlen_append (s t : string) :
  strlen (s ++ t) = strlen s + strlen t.
Proof.
  unfold strlen. induction s as [|a s IH]; simpl String.length; [reflexivity|].
  rewrite !Nat2Z.inj_succ. simpl in IH. lia.
Qed.

Lemma flatText_length n : strlen (flatText n) = textLength n.
Proof.
  induction n as [s | name cs IH] using node_induction; [reflexivity|].
  rewrite textLength_Elem. simpl. rewrite strlen_append. f_equal.
  - now destruct (isBR name).
  - induction IH as [|c cs Hc _ IHcs]; simpl; [reflexivity|].
    rewrite strlen_append. now rewrite Hc, IHcs.
Qed.

Lemma strlen_nonneg s : 0 <= strlen s.
Proof. unfold strlen. lia. Qed.

(** ** What [traverse] leaves in [left] *)

Lemma traverse_Continue n : forall left left',
  traverse n left = Continue left' -> left' = left - textLength n.
Proof.
  induction n as [s | name cs IH] using node_induction; intros left left'.
  - simpl. destruct (left - strlen s <=? 0); congruence.
  - rewrite traverse_Elem, textLength_Elem.
    assert (Hcs : forall i l l',
               traverseChildren cs i l = Continue l' ->
               l' = l - textLengths cs).
    { induction IH as [|c cs Hc _ IHcs]; intros i l l'; simpl.
      - intros [= <-]. lia.
      - destruct (traverse c l) as [p q | l1] eqn:E; [discriminate|].
        intros H. apply Hc in E. apply IHcs in H. lia. }
    destruct (isBR name).
    + destruct (left - 1 <? 0); [discriminate|].
      intros H. apply Hcs in H. lia.
    + intros H. apply Hcs in H. lia.
Qed.

Lemma traverseChildren_Continue cs : forall i left left',
  traverseChildren cs i left = Continue left' ->
  left' = left - textLengths cs.
Proof.
  induction cs as [|c cs IH]; intros i left left'; simpl.
  - intros [= <-]. lia.
  - destruct (traverse c left) as [p q | l1] eqn:E; [discriminate|].
    intros H. apply traverse_Continue in E. apply IH in H. lia.
Qed.

(** A result of the children loop comes from one child, reached with what the
    children before it left. *)
Lemma traverseChildren_Found cs : forall i left p l,
  traverseChildren cs i left = Found p l ->
  exists j c p',
    p = (i + j)%nat :: p' /\ nth_error cs j = Some c /\
    traverse c (left - textLengths (firstn j cs)) = Found p' l.
Proof.
  induction cs as [|c cs IH]; intros i left p l; simpl; [discriminate|].
  destruct (traverse c left) as [p1 l1 | left1] eqn:E.
  - intros [= <- <-]. exists 0%nat, c, p1. simpl.
    rewrite Nat.add_0_r, Z.sub_0_r. auto.
  - intros H. apply IH in H. destruct H as (j & d & p' & -> & Hnth & Hd).
    exists (S j), d, p'. simpl. rewrite Nat.add_succ_r. split; [reflexivity|].
    split; [assumption|].
    apply traverse_Continue in E. subst left1.
    replace (left - (textLength c + textLengths (firstn j cs)))
      with (left - textLength c - textLengths (firstn j cs)) by lia.
    exact Hd.
Qed.

(** The position [traverse] returns has the offset it was asked for. *)
Lemma traverse_Found n : forall left p l,
  traverse n left = Found p l -> toGlobalOffset n p l = Some left.
Proof.
  induction n as [s | name cs IH] using node_induction; intros left p l.
  - simpl. destruct (left - strlen s <=? 0); [|discriminate].
    now intros [= <- <-].
  - rewrite traverse_Elem.
    assert (Hcs : forall left0,
               traverseChildren cs 0%nat left0 = Found p l ->
               toGlobalOffset (Elem name cs) p l =
               Some ((if isBR name then 1 else 0) + left0)).
    { intros left0 H. apply traverseChildren_Found in H.
      destruct H as (j & c & p' & -> & Hnth & Hc). simpl.
      rewrite Hnth. rewrite Forall_forall in IH.
      rewrite (IH c (nth_error_In _ _ Hnth) _ _ _ Hc).
      f_equal. fold (textLengths (firstn j cs)). lia. }
    destruct (isBR name) eqn:B.
    + destruct (left - 1 <? 0).
      * intros [= <- <-]. simpl. now rewrite B.
      * intros H. rewrite (Hcs _ H). f_equal. lia.
    + intros H. rewrite (Hcs _ H). f_equal.
Qed.

Lemma traverse_nonneg n : forall left left',
  0 <= left -> traverse n left = Continue left' -> 0 <= left'.
Proof.
  induction n as [s | name cs IH] using node_induction; intros left left' H0.
  - simpl. destruct (left - strlen s <=? 0) eqn:E; [discriminate|].
    intros [= <-]. apply Z.leb_gt in E. lia.
  - rewrite traverse_Elem.
    assert (Hcs : forall i l l', 0 <= l ->
               traverseChildren cs i l = Continue l' -> 0 <= l').
    { induction IH as [|c cs Hc _ IHcs]; intros i l l' Hl; simpl.
      - now intros [= <-].
      - destruct (traverse c l) as [p q | l1] eqn:E; [discriminate|].
        intros H. apply (IHcs (S i) l1 l'); [|exact H]. eapply Hc; eauto. }
    destruct (isBR name).
    + destruct (left - 1 <? 0) eqn:E; [discriminate|].
      apply Z.ltb_ge in E. apply Hcs. lia.
    + now apply Hcs.
Qed.

Lemma lastLeaf_None n : lastLeaf n = None -> textLength n = 0.
Proof.
  induction n as [s | name cs IH] using node_induction; [discriminate|].
  rewrite lastLeaf_Elem, textLength_Elem.
  destruct (lastLeafIn cs) as [b|] eqn:E; [discriminate|].
  destruct (isBR name); [discriminate|]. intros _.
  induction IH as [|c cs Hc _ IHcs]; [reflexivity|].
  simpl in E |- *. destruct (lastLeafIn cs); [discriminate|].
  rewrite (Hc E), (IHcs eq_refl). reflexivity.
Qed.

Lemma lastLeafIn_None cs : lastLeafIn cs = None -> textLengths cs = 0.
Proof.
  induction cs as [|c cs IH]; simpl; [reflexivity|].
  destruct (lastLeafIn cs); [discriminate|]. intros H.
  rewrite (lastLeaf_None _ H), (IH eq_refl). reflexivity.
Qed.

(** After a subtree that ends in a text node something is left of the
    offset: the offset lies beyond the subtree. *)
Lemma traverse_lastLeaf_text n : forall left left',
  lastLeaf n = Some true -> traverse n left = Continue left' -> 0 < left'.
Proof.
  induction n as [s | name cs IH] using node_induction; intros left left'.
  - simpl. intros _. destruct (left - strlen s <=? 0) eqn:E; [discriminate|].
    intros [= <-]. apply Z.leb_gt in E. lia.
  - rewrite lastLeaf_Elem, traverse_Elem. intros HL.
    assert (HLcs : lastLeafIn cs = Some true).
    { destruct (lastLeafIn cs); [assumption|].
      destruct (isBR name); discriminate. }
    clear HL.
    assert (Hcs : forall i l l',
               traverseChildren cs i l = Continue l' -> 0 < l').
    { induction IH as [|c cs Hc _ IHcs]; intros i l l'; [discriminate|].
      simpl in HLcs |- *.
      destruct (traverse c l) as [p q | l1] eqn:E; [discriminate|].
      intros H. destruct (lastLeafIn cs) as [b|] eqn:EL.
      - eapply IHcs; eauto.
      - apply traverseChildren_Continue in H.
        rewrite (lastLeafIn_None _ EL) in H.
        specialize (Hc _ _ HLcs E). lia. }
    destruct (isBR name).
    + destruct (left - 1 <? 0); [discriminate|]. apply Hcs.
    + apply Hcs.
Qed.


(** ** Resolving global offsets *)

(** Whatever [findNode] returns is a position at the offset asked for. *)
Lemma findNode_sound root g p l :
  findNode root g = Some (p, l) -> toGlobalOffset root p l = Some g.
Proof.
  unfold findNode. destruct (traverse root g) as [p' l' | left] eqn:E;
    [|discriminate].
  intros [= <- <-]. now apply traverse_Found.
Qed.

(** [findNode] returns a position for every offset inside the text. *)
Lemma findNode_inside root g :
  0 <= g < textLength root -> exists p l, findNode root g = Some (p, l).
Proof.
  intros [H0 H1]. unfold findNode.
  destruct (traverse root g) as [p l | left] eqn:E; [eauto|].
  pose proof (traverse_nonneg _ _ _ H0 E).
  apply traverse_Continue in E. lia.
Qed.

(** [findNode] returns a position for the offset at the end of a text whose
    last node is a text node. *)
Lemma findNode_at_end root :
  lastLeaf root = Some true ->
  exists p l, findNode root (textLength root) = Some (p, l).
Proof.
  intros HL. unfold findNode.
  destruct (traverse root (textLength root)) as [p l | left] eqn:E; [eauto|].
  pose proof (traverse_lastLeaf_text _ _ _ HL E).
  apply traverse_Continue in E. lia.
Qed.

(** The same offset resolves to the same place of the flat text however the
    text is spread over nodes. *)
Lemma findNode_fragmentation root1 root2 g :
  flatText root1 = flatText root2 ->
  0 <= g < strlen (flatText root1) ->
  exists p1 l1 p2 l2,
    findNode root1 g = Some (p1, l1) /\ findNode root2 g = Some (p2, l2) /\
    toGlobalOffset root1 p1 l1 = Some g /\ toGlobalOffset root2 p2 l2 = Some g.
Proof.
  intros Heq Hg.
  assert (H1 : 0 <= g < textLength root1) by now rewrite <- flatText_length.
  assert (H2 : 0 <= g < textLength root2)
    by now rewrite <- flatText_length, <- Heq.
  destruct (findNode_inside _ _ H1) as (p1 & l1 & E1).
  destruct (findNode_inside _ _ H2) as (p2 & l2 & E2).
  exists p1, l1, p2, l2. repeat split; auto using findNode_sound.
Qed.







(** ** Word alignment *)

(** The word alignment example on the text rendered in one text node: the
    result is the range from offset 4 to offset 9 of that node, the word
    "quick", whatever the containers of the raw range are. *)
Lemma alignWord_quick_one_node :
  forall r : Range,
    alignWord rootFox valFox r 5 8 = Normal (mkRange [0%nat] 4 [0%nat] 9) /\
    globalOffsets rootFox (mkRange [0%nat] 4 [0%nat] 9) = Some (4, 9) /\
    substring valFox 4 9 = "quick".
Proof.
  intros r. split; [|split; reflexivity].
  unfold alignWord.
  assert (Hs : alignStart rootFox valFox r r 5 = setStart rootFox r [0%nat] 4)
    by reflexivity.
  rewrite Hs. unfold setStart.
  change (checkBoundary rootFox [0%nat] 4) with (Normal tt). cbn [bind].
  destruct (bpCompare [0%nat] 4 (endContainer r) (endOffset r)); reflexivity.
Qed.

(** The same selection when the text is split in two nodes. *)
Lemma alignWord_quick_fragmented :
  forall r : Range,
    exists r2,
      alignWord rootFox2 valFox r 5 8 = Normal r2 /\
      globalOffsets rootFox2 r2 = Some (4, 9).
Proof.
  intros r. exists (mkRange [0%nat] 4 [1%nat] 2). split; [|reflexivity].
  unfold alignWord.
  assert (Hs : alignStart rootFox2 valFox r r 5 = setStart rootFox2 r [0%nat] 4)
    by reflexivity.
  rewrite Hs. unfold setStart.
  change (checkBoundary rootFox2 [0%nat] 4) with (Normal tt). cbn [bind].
  destruct (bpCompare [0%nat] 4 (endContainer r) (endOffset r)); reflexivity.
Qed.

(** The index the end boundary is moved to, case by case. *)
Lemma indexOfFrom_lower c s : forall i, 0 <= i ->
  indexOfFrom c s i = -1 \/ i <= indexOfFrom c s i.
Proof.
  induction s as [|a s IH]; intros i Hi; simpl; [now left|].
  destruct (Ascii.eqb a c); [right; lia|].
  destruct (IH (i + 1)) as [H | H]; [lia | now left | right; lia].
Qed.

Lemma indexOf_lower s c : indexOf s c = -1 \/ 0 <= indexOf s c.
Proof. apply indexOfFrom_lower. lia. Qed.

(** Only a space follows, or only a line break: the one found is taken, the
    -1 of the other never. *)
Lemma endIndex_only_space s e :
  indexOf s lf = -1 -> indexOf s space <> -1 ->
  endIndex s e = Some (indexOf s space + e).
Proof.
  intros Hn Hs. unfold endIndex. rewrite Hn.
  change (-1 =? -1) with true. change (-1 >? 0) with false. cbn [andb].
  destruct (Z.eqb_spec (indexOf s space) (-1)); [contradiction|reflexivity].
Qed.

Lemma endIndex_only_newline s e :
  indexOf s space = -1 -> indexOf s lf <> -1 ->
  endIndex s e = Some (indexOf s lf + e).
Proof.
  intros Hs Hn. unfold endIndex. rewrite Hs.
  change (-1 =? -1) with true. change (-1 >? 0) with false.
  rewrite andb_false_r. reflexivity.
Qed.

(** Both follow, neither at the boundary itself: the nearer is taken. *)
Lemma endIndex_both s e :
  0 < indexOf s space -> 0 < indexOf s lf ->
  endIndex s e = Some (Z.min (indexOf s space) (indexOf s lf) + e).
Proof.
  intros Hs Hn. unfold endIndex.
  replace (indexOf s lf >? 0) with true by (symmetry; apply Z.gtb_lt; lia).
  replace (indexOf s space >? 0) with true by (symmetry; apply Z.gtb_lt; lia).
  cbn [andb option_map]. f_equal. f_equal.
  destruct (indexOf s space >? indexOf s lf) eqn:E.
  - apply Z.gtb_lt in E. lia.
  - rewrite Z.gtb_ltb in E. apply Z.ltb_ge in E. lia.
Qed.

(** Neither follows: the index is the -1 of the searches moved by [end], so
    it is -1 only when [end] is 0. *)
Lemma endIndex_neither s e :
  indexOf s space = -1 -> indexOf s lf = -1 -> endIndex s e = Some (e - 1).
Proof.
  intros Hs Hn. unfold endIndex. rewrite Hs, Hn.
  change (-1 =? -1) with true. change (-1 >? 0) with false.
  cbn [andb option_map]. f_equal. lia.
Qed.

(** When nothing follows the end boundary and it is not among the first two
    characters, [alignEnd] moves the end to the position before the one
    [findIdxContainer] finds for the boundary itself. *)
Lemma alignEnd_neither root val r r2 e :
  let strright := substring val e (strlen val) in
  0 < strlen strright ->
  indexOf strright space = -1 -> indexOf strright lf = -1 ->
  2 <= e ->
  alignEnd root val r r2 e =
  (nl <- findIdxContainer root e ;; setEnd root r2 (fst nl) (snd nl - 1)).
Proof.
  intros strright Hlen Hs Hn He. unfold alignEnd. fold strright.
  replace (strlen strright >? 0) with true by (symmetry; apply Z.gtb_lt; lia).
  rewrite (endIndex_neither _ _ Hs Hn).
  replace (e - 1 =? -1) with false by (symmetry; apply Z.eqb_neq; lia).
  replace (e - 1 >? 0) with true by (symmetry; apply Z.gtb_lt; lia).
  cbn [bind]. now replace (e - 1 + 1) with e by lia.
Qed.

(** ** Positions of the tree and their order *)

Lemma textLength_nonneg n : 0 <= textLength n.
Proof.
  induction n as [s | name cs IH] using node_induction.
  - apply strlen_nonneg.
  - rewrite textLength_Elem.
    assert (0 <= textLengths cs).
    { induction IH as [|c cs Hc _ IHcs]; simpl; lia. }
    destruct (isBR name); lia.
Qed.

Lemma textLengths_nonneg cs : 0 <= textLengths cs.
Proof.
  induction cs as [|c cs IH]; simpl; [lia|].
  pose proof (textLength_nonneg c). lia.
Qed.

Lemma textLengths_firstn_le cs : forall c d x,
  (c < d)%nat -> nth_error cs c = Some x ->
  textLengths (firstn c cs) + textLength x <= textLengths (firstn d cs).
Proof.
  induction cs as [|a cs IH]; intros c d x Hlt Hnth.
  - destruct c; discriminate.
  - destruct d as [|d]; [lia|]. destruct c as [|c]; simpl in *.
    + injection Hnth as ->. pose proof (textLengths_nonneg (firstn d cs)). lia.
    + specialize (IH c d x ltac:(lia) Hnth). lia.
Qed.

Lemma textLengths_firstn_nth cs : forall i x,
  nth_error cs i = Some x ->
  textLengths (firstn i cs) + textLength x <= textLengths cs.
Proof.
  induction cs as [|a cs IH]; intros i x Hnth.
  - destruct i; discriminate.
  - destruct i as [|i]; simpl in *.
    + injection Hnth as ->. pose proof (textLengths_nonneg cs). lia.
    + specialize (IH i x Hnth). lia.
Qed.

Lemma validPos_cons name cs i p o c :
  nth_error cs i = Some c ->
  validPos (Elem name cs) (i :: p) o <-> validPos c p o.
Proof. intros H. unfold validPos. simpl. now rewrite H. Qed.

Lemma validPos_child n i p o :
  validPos n (i :: p) o ->
  exists name cs c, n = Elem name cs /\ nth_error cs i = Some c /\ validPos c p o.
Proof.
  unfold validPos. destruct n as [s | name cs]; simpl; [tauto|].
  destruct (nth_error cs i) as [c|] eqn:E; [|tauto].
  intros H. exists name, cs, c. auto.
Qed.

Lemma toGlobalOffset_validPos p : forall n o,
  validPos n p o ->
  exists g, toGlobalOffset n p o = Some g /\ 0 <= g <= textLength n.
Proof.
  induction p as [|i p IH]; intros n o Hv.
  - unfold validPos in Hv. simpl in Hv.
    destruct n as [s | name cs]; cbn [toGlobalOffset].
    + exists o. auto.
    + destruct Hv as [Hb ->]. rewrite Hb. exists 0. split; [reflexivity|].
      pose proof (textLength_nonneg (Elem name cs)). lia.
  - apply validPos_child in Hv. destruct Hv as (name & cs & c & -> & Hnth & Hc).
    destruct (IH _ _ Hc) as (g & Hg & Hr). cbn [toGlobalOffset].
    rewrite Hnth, Hg.
    eexists. split; [reflexivity|]. rewrite textLength_Elem.
    pose proof (textLengths_firstn_nth _ _ _ Hnth).
    pose proof (textLengths_nonneg (firstn i cs)).
    destruct (isBR name); lia.
Qed.

Lemma bpCompare_global p : forall n q o o' gp gq,
  validPos n p o -> validPos n q o' ->
  toGlobalOffset n p o = Some gp -> toGlobalOffset n q o' = Some gq ->
  (bpCompare p o q o' = Gt -> gq <= gp) /\
  (bpCompare p o q o' = Lt -> gp <= gq).
Proof.
  induction p as [|c p IH]; intros n q o o' gp gq Hp Hq Gp Gq.
  - destruct q as [|d q].
    + unfold validPos in Hp, Hq. simpl in *. destruct n as [s | name cs].
      * injection Gp as <-. injection Gq as <-. split; intros H.
        -- rewrite Z.compare_gt_iff in H. lia.
        -- rewrite Z.compare_lt_iff in H. lia.
      * destruct Hp as [_ ->]. destruct Hq as [_ ->]. simpl. split; discriminate.
    + apply validPos_child in Hq.
      destruct Hq as (name & cs & x & -> & Hnth & Hx).
      unfold validPos in Hp. simpl in Hp. destruct Hp as [Hb ->].
      cbn [toGlobalOffset] in Gp. rewrite Hb in Gp. cbv iota in Gp.
      injection Gp as <-.
      destruct (toGlobalOffset_validPos _ _ _ Hx) as (g & Hg & Hr).
      cbn [toGlobalOffset] in Gq. rewrite Hnth, Hg, Hb in Gq.
      assert (Eq : gq = 1 + textLengths (firstn d cs) + g) by congruence.
      clear Gq. subst gq.
      pose proof (textLengths_nonneg (firstn d cs)).
      cbn [bpCompare]. split; [|lia].
      destruct (0 <=? Z.of_nat d) eqn:E; [discriminate|].
      apply Z.leb_gt in E. lia.
  - apply validPos_child in Hp.
    destruct Hp as (name & cs & x & -> & Hnth & Hx).
    destruct (toGlobalOffset_validPos _ _ _ Hx) as (g & Hg & Hr).
    cbn [toGlobalOffset] in Gp. rewrite Hnth, Hg in Gp. injection Gp as <-.
    destruct q as [|d q].
    + unfold validPos in Hq. simpl in Hq. destruct Hq as [Hb ->].
      cbn [toGlobalOffset] in Gq. rewrite Hb in Gq. cbv iota in Gq.
      injection Gq as <-.
      pose proof (textLengths_nonneg (firstn c cs)).
      cbn [bpCompare]. split; [destruct (isBR name); lia|].
      destruct (0 <=? Z.of_nat c) eqn:E; [discriminate|].
      apply Z.leb_gt in E. lia.
    + apply validPos_child in Hq.
      destruct Hq as (name' & cs' & y & [= <- <-] & Hnth' & Hy).
      destruct (toGlobalOffset_validPos _ _ _ Hy) as (g' & Hg' & Hr').
      cbn [toGlobalOffset] in Gq. rewrite Hnth', Hg' in Gq. injection Gq as <-.
      cbn [bpCompare]. destruct (Nat.compare_spec c d) as [-> | Hlt | Hgt].
      * rewrite Hnth in Hnth'. injection Hnth' as <-.
        destruct (IH _ _ _ _ _ _ Hx Hy Hg Hg') as [H1 H2].
        split; intros H; [apply H1 in H | apply H2 in H]; lia.
      * pose proof (textLengths_firstn_le _ _ _ _ Hlt Hnth).
        split; [discriminate|]. intros _. lia.
      * pose proof (textLengths_firstn_le _ _ _ _ Hgt Hnth').
        split; [|discriminate]. intros _. lia.
Qed.

Lemma flatText_Elem name cs :
  flatText (Elem name cs)
  = ((if isBR name then newline else "") ++ flatTexts cs)%string.
Proof. reflexivity. Qed.

Lemma get_Some_lt s : forall n c,
  String.get n s = Some c -> (n < String.length s)%nat.
Proof.
  induction s as [|a s IH]; intros n c; simpl; [discriminate|].
  destruct n as [|n]; [lia|]. intros H. apply IH in H. lia.
Qed.

Lemma charAt_Some s i c : charAt s i = Some c -> 0 <= i < strlen s.
Proof.
  unfold charAt, strlen. destruct (i <? 0) eqn:E; [discriminate|].
  apply Z.ltb_ge in E. intros H. apply get_Some_lt in H. lia.
Qed.

Lemma charAt_app_l s1 s2 i :
  i < strlen s1 -> charAt (s1 ++ s2) i = charAt s1 i.
Proof.
  unfold charAt, strlen. intros H. destruct (i <? 0) eqn:E; [reflexivity|].
  apply Z.ltb_ge in E. symmetry. apply append_correct1. lia.
Qed.

Lemma charAt_app_r s1 s2 i :
  strlen s1 <= i -> charAt (s1 ++ s2) i = charAt s2 (i - strlen s1).
Proof.
  unfold charAt. intros H. pose proof (strlen_nonneg s1).
  destruct (i <? 0) eqn:E; [apply Z.ltb_lt in E; lia|].
  destruct (i - strlen s1 <? 0) eqn:E'; [apply Z.ltb_lt in E'; lia|].
  rewrite (append_correct2 s1 s2). f_equal. unfold strlen in *. lia.
Qed.

Lemma traverseChildren_Found_nonneg cs : forall i left p l,
  0 <= left ->
  traverseChildren cs i left = Found p l ->
  exists j c p',
    p = (i + j)%nat :: p' /\ nth_error cs j = Some c /\
    0 <= left - textLengths (firstn j cs) /\
    traverse c (left - textLengths (firstn j cs)) = Found p' l.
Proof.
  induction cs as [|c cs IH]; intros i left p l H0; simpl; [discriminate|].
  destruct (traverse c left) as [p1 l1 | left1] eqn:E.
  - intros [= <- <-]. exists 0%nat, c, p1. simpl.
    rewrite Nat.add_0_r, Z.sub_0_r. auto.
  - intros H. pose proof (traverse_nonneg _ _ _ H0 E) as H1.
    apply (IH _ _ _ _ H1) in H.
    destruct H as (j & d & p' & -> & Hnth & Hpos & Hd).
    apply traverse_Continue in E. subst left1.
    exists (S j), d, p'. simpl. rewrite Nat.add_succ_r.
    replace (left - (textLength c + textLengths (firstn j cs)))
      with (left - textLength c - textLengths (firstn j cs)) by lia.
    auto.
Qed.

(** For an offset that is not negative, the position [traverse] returns is
    one of the tree: inside a text node or at its ends, or at a line break. *)
Lemma traverse_validPos n : forall left p l,
  0 <= left -> traverse n left = Found p l -> validPos n p l.
Proof.
  induction n as [s | name cs IH] using node_induction; intros left p l H0.
  - simpl. destruct (left - strlen s <=? 0) eqn:E; [|discriminate].
    intros [= <- <-]. apply Z.leb_le in E. unfold validPos. simpl. lia.
  - rewrite traverse_Elem.
    assert (Hcs : forall left0, 0 <= left0 ->
               traverseChildren cs 0%nat left0 = Found p l ->
               validPos (Elem name cs) p l).
    { intros left0 Hl0 H. apply traverseChildren_Found_nonneg in H; [|exact Hl0].
      destruct H as (j & c & p' & -> & Hnth & Hpos & Hc). simpl.
      apply (validPos_cons name cs j p' l c Hnth).
      rewrite Forall_forall in IH.
      exact (IH c (nth_error_In _ _ Hnth) _ _ _ Hpos Hc). }
    destruct (isBR name) eqn:B.
    + destruct (left - 1 <? 0) eqn:E.
      * intros [= <- <-]. apply Z.ltb_lt in E. unfold validPos. simpl.
        split; [exact B | lia].
      * apply Z.ltb_ge in E. apply Hcs. lia.
    + now apply Hcs.
Qed.

Lemma findNode_validPos root g p l :
  0 <= g -> findNode root g = Some (p, l) -> validPos root p l.
Proof.
  unfold findNode. intros H0.
  destruct (traverse root g) as [p' l' | left] eqn:E; [|discriminate].
  intros [= <- <-]. eapply traverse_validPos; eauto.
Qed.

Lemma validPos_checkBoundary root p o :
  validPos root p o -> checkBoundary root p o = Normal tt.
Proof.
  unfold validPos, checkBoundary.
  destruct (nodeAt root p) as [[s | name cs]|]; [| |tauto].
  - intros [H0 H1]. simpl.
    replace (0 <=? o) with true by (symmetry; apply Z.leb_le; lia).
    replace (o <=? strlen s) with true by (symmetry; apply Z.leb_le; lia).
    reflexivity.
  - intros [_ ->]. simpl.
    replace (0 <=? Z.of_nat (Datatypes.length cs)) with true
      by (symmetry; apply Z.leb_le; lia).
    reflexivity.
Qed.

(** Where [traverse] finds something, the offset is within the subtree. *)
Lemma traverse_Found_le n left p l :
  0 <= left -> traverse n left = Found p l -> left <= textLength n.
Proof.
  intros H0 H. pose proof (traverse_validPos _ _ _ _ H0 H) as Hv.
  apply traverse_Found in H.
  destruct (toGlobalOffset_validPos _ _ _ Hv) as (g & Hg & Hr).
  rewrite H in Hg. injection Hg as <-. lia.
Qed.

(** The offset right after a character that is not a line break resolves
    to a position after that character in its text node. *)
Lemma traverse_char n : forall left c,
  1 <= left -> charAt (flatText n) (left - 1) = Some c -> c <> lf ->
  exists p l, traverse n left = Found p l /\ 1 <= l.
Proof.
  induction n as [s | name cs IH] using node_induction; intros left c H1 Hc Hlf.
  - simpl in Hc. apply charAt_Some in Hc. simpl.
    replace (left - strlen s <=? 0) with true
      by (symmetry; apply Z.leb_le; lia).
    eauto.
  - rewrite traverse_Elem. rewrite flatText_Elem in Hc.
    assert (Hcs : forall i left0, 1 <= left0 ->
               charAt (flatTexts cs) (left0 - 1) = Some c ->
               exists p l, traverseChildren cs i left0 = Found p l /\ 1 <= l).
    { clear Hc. induction IH as [|x cs Hx _ IHcs]; intros i left0 Hl0 Hch.
      - unfold charAt in Hch. simpl in Hch.
        destruct (left0 - 1 <? 0); [discriminate|].
        destruct (Z.to_nat (left0 - 1)); discriminate.
      - simpl in Hch. cbn [traverseChildren].
        destruct (Z.lt_ge_cases (left0 - 1) (strlen (flatText x))) as [Hin|Hout].
        + rewrite charAt_app_l in Hch by exact Hin.
          destruct (Hx _ _ Hl0 Hch Hlf) as (p & l & -> & Hl). eauto.
        + rewrite charAt_app_r in Hch by exact Hout.
          rewrite flatText_length in Hout, Hch.
          destruct (traverse x left0) as [p l | left1] eqn:E.
          * apply traverse_Found_le in E; lia.
          * apply traverse_Continue in E. subst left1.
            apply IHcs; [lia|].
            now replace (left0 - textLength x - 1)
              with (left0 - 1 - textLength x) by lia. }
    destruct (isBR name).
    + replace (left - 1 <? 0) with false by (symmetry; apply Z.ltb_ge; lia).
      destruct (Z.eq_dec left 1) as [-> | Hne].
      * exfalso. apply Hlf. cbv in Hc. injection Hc as <-. reflexivity.
      * apply Hcs; [lia|].
        rewrite charAt_app_r in Hc by (unfold strlen; simpl; lia).
        exact Hc.
    + apply Hcs; [lia|]. exact Hc.
Qed.

Lemma findNode_char root g c :
  1 <= g -> charAt (flatText root) (g - 1) = Some c -> c <> lf ->
  exists p l, findNode root g = Some (p, l) /\ 1 <= l /\ validPos root p l.
Proof.
  intros H1 Hc Hlf. destruct (traverse_char _ _ _ H1 Hc Hlf) as (p & l & E & Hl).
  exists p, l. unfold findNode. rewrite E. repeat split; [exact Hl|].
  eapply traverse_validPos; [|exact E]. lia.
Qed.

(** Moving inside a text node moves the global offset as much. *)
Lemma toGlobalOffset_shift p : forall n s o o' g,
  nodeAt n p = Some (Text s) ->
  toGlobalOffset n p o = Some g ->
  toGlobalOffset n p o' = Some (g + (o' - o)).
Proof.
  induction p as [|i p IH]; intros n s o o' g Hn Hg.
  - simpl in Hn. injection Hn as ->. simpl in *. injection Hg as <-.
    f_equal. lia.
  - destruct n as [t | name cs]; [discriminate|]. simpl in Hn.
    cbn [toGlobalOffset] in *.
    destruct (nth_error cs i) as [c|]; [|discriminate].
    destruct (toGlobalOffset c p o) as [gc|] eqn:E; [|discriminate].
    rewrite (IH _ _ _ o' _ Hn E).
    assert (Eq : g = (if isBR name then 1 else 0)
                     + textLengths (firstn i cs) + gc) by congruence.
    subst g. f_equal. lia.
Qed.

Lemma validPos_text root p o :
  validPos root p o -> 1 <= o ->
  exists s, nodeAt root p = Some (Text s) /\ o <= strlen s.
Proof.
  unfold validPos. destruct (nodeAt root p) as [[s | name cs]|]; [| |tauto].
  - intros [_ H] _. eauto.
  - intros [_ ->]. lia.
Qed.

Lemma validPos_pred root p o :
  validPos root p o -> 1 <= o -> validPos root p (o - 1).
Proof.
  intros Hv H1. destruct (validPos_text _ _ _ Hv H1) as (s & Hn & Hle).
  unfold validPos. rewrite Hn. lia.
Qed.

(** [setStart] and [setEnd] in terms of global offsets: when the boundary
    that is set does not cross the other one, the other keeps its offset. *)
Lemma setStart_global root r p o gs ge :
  validPos root p o ->
  validPos root (endContainer r) (endOffset r) ->
  toGlobalOffset root p o = Some gs ->
  toGlobalOffset root (endContainer r) (endOffset r) = Some ge ->
  gs <= ge ->
  exists r',
    setStart root r p o = Normal r' /\
    startContainer r' = p /\ startOffset r' = o /\
    validPos root (endContainer r') (endOffset r') /\
    toGlobalOffset root (endContainer r') (endOffset r') = Some ge.
Proof.
  intros Hp He Gp Ge Hle. unfold setStart.
  rewrite (validPos_checkBoundary _ _ _ Hp). cbn [bind].
  destruct (bpCompare_global p root (endContainer r) o (endOffset r) gs ge
              Hp He Gp Ge) as [Hgt _].
  destruct (bpCompare p o (endContainer r) (endOffset r)) eqn:E;
    eexists; (split; [reflexivity|]); cbn; repeat split; auto.
  specialize (Hgt eq_refl). rewrite Gp. f_equal. lia.
Qed.

Lemma setEnd_global root r p o gs ge :
  validPos root p o ->
  validPos root (startContainer r) (startOffset r) ->
  toGlobalOffset root p o = Some ge ->
  toGlobalOffset root (startContainer r) (startOffset r) = Some gs ->
  gs <= ge ->
  exists r',
    setEnd root r p o = Normal r' /\
    endContainer r' = p /\ endOffset r' = o /\
    validPos root (startContainer r') (startOffset r') /\
    toGlobalOffset root (startContainer r') (startOffset r') = Some gs.
Proof.
  intros Hp Hs Gp Gs Hle. unfold setEnd.
  rewrite (validPos_checkBoundary _ _ _ Hp). cbn [bind].
  destruct (bpCompare_global p root (startContainer r) o (startOffset r) ge gs
              Hp Hs Gp Gs) as [_ Hlt].
  destruct (bpCompare p o (startContainer r) (startOffset r)) eqn:E;
    eexists; (split; [reflexivity|]); cbn; repeat split; auto.
  specialize (Hlt eq_refl). rewrite Gp. f_equal. lia.
Qed.

(** ** Searching a string *)

Lemma charAt_cons a s i :
  0 < i -> charAt (String a s) i = charAt s (i - 1).
Proof.
  intros H. unfold charAt.
  replace (i <? 0) with false by (symmetry; apply Z.ltb_ge; lia).
  replace (i - 1 <? 0) with false by (symmetry; apply Z.ltb_ge; lia).
  replace (Z.to_nat i) with (S (Z.to_nat (i - 1))) by lia. reflexivity.
Qed.

Lemma strlen_cons a s : strlen (String a s) = strlen s + 1.
Proof. unfold strlen. simpl String.length. lia. Qed.

Lemma indexOfFrom_spec c s : forall i,
  indexOfFrom c s i = -1 /\ (forall j, 0 <= j < strlen s -> charAt s j <> Some c)
  \/
  (i <= indexOfFrom c s i < i + strlen s /\
   charAt s (indexOfFrom c s i - i) = Some c /\
   forall j, 0 <= j < indexOfFrom c s i - i -> charAt s j <> Some c).
Proof.
  induction s as [|a s IH]; intros i.
  - left. split; [reflexivity|]. unfold strlen. simpl. lia.
  - cbn [indexOfFrom]. rewrite strlen_cons. pose proof (strlen_nonneg s).
    destruct (Ascii.eqb_spec a c) as [-> | Hne].
    + right. split; [lia|]. rewrite Z.sub_diag. split; [reflexivity|]. lia.
    + assert (H0 : charAt (String a s) 0 <> Some c)
        by (cbv; congruence).
      destruct (IH (i + 1)) as [[E Hall] | (Hr & Hc & Hall)].
      * left. split; [exact E|]. intros j Hj.
        destruct (Z.eq_dec j 0) as [-> | Hj0]; [exact H0|].
        rewrite charAt_cons by lia. apply Hall. lia.
      * right. split; [lia|]. split.
        -- rewrite charAt_cons by lia.
           now replace (indexOfFrom c s (i + 1) - i - 1)
             with (indexOfFrom c s (i + 1) - (i + 1)) by lia.
        -- intros j Hj. destruct (Z.eq_dec j 0) as [-> | Hj0]; [exact H0|].
           rewrite charAt_cons by lia. apply Hall. lia.
Qed.

(** [indexOf]: -1 when the character does not occur, otherwise the index of
    its first occurrence. *)
Lemma indexOf_spec s c :
  indexOf s c = -1 /\ (forall j, 0 <= j < strlen s -> charAt s j <> Some c)
  \/
  (0 <= indexOf s c < strlen s /\ charAt s (indexOf s c) = Some c /\
   forall j, 0 <= j < indexOf s c -> charAt s j <> Some c).
Proof.
  unfold indexOf. destruct (indexOfFrom_spec c s 0) as [H | (Hr & Hc & Hall)].
  - now left.
  - right. rewrite Z.sub_0_r in Hc, Hall. split; [lia|]. split; assumption.
Qed.

Lemma indexOf_first s c :
  charAt s 0 = Some c -> indexOf s c = 0.
Proof.
  intros H. destruct (indexOf_spec s c) as [[_ Hall] | (Hr & _ & Hall)].
  - exfalso. apply charAt_Some in H as Hlt. exact (Hall 0 Hlt H).
  - destruct (Z.eq_dec (indexOf s c) 0) as [E | Hne]; [exact E|].
    exfalso. apply (Hall 0); [lia | exact H].
Qed.

Lemma indexOf_not_first s c a :
  charAt s 0 = Some a -> a <> c -> indexOf s c <> 0.
Proof.
  intros H Hne E. destruct (indexOf_spec s c) as [[E' _] | (_ & Hc & _)].
  - lia.
  - rewrite E in Hc. congruence.
Qed.

Lemma lastIndexOfFrom_spec c s : forall i found,
  found < i ->
  (lastIndexOfFrom c s i found = found /\
   forall j, 0 <= j < strlen s -> charAt s j <> Some c)
  \/
  (i <= lastIndexOfFrom c s i found < i + strlen s /\
   charAt s (lastIndexOfFrom c s i found - i) = Some c /\
   forall j, lastIndexOfFrom c s i found - i < j < strlen s ->
             charAt s j <> Some c).
Proof.
  induction s as [|a s IH]; intros i found Hf.
  - left. split; [reflexivity|]. unfold strlen. simpl. lia.
  - cbn [lastIndexOfFrom]. rewrite strlen_cons. pose proof (strlen_nonneg s).
    destruct (Ascii.eqb_spec a c) as [-> | Hne].
    + destruct (IH (i + 1) i ltac:(lia)) as [[E Hall] | (Hr & Hc & Hall)].
      * right. rewrite E. split; [lia|]. rewrite Z.sub_diag.
        split; [reflexivity|]. intros j Hj.
        rewrite charAt_cons by lia. apply Hall. lia.
      * right. split; [lia|]. split.
        -- rewrite charAt_cons by lia.
           now replace (lastIndexOfFrom c s (i + 1) i - i - 1)
             with (lastIndexOfFrom c s (i + 1) i - (i + 1)) by lia.
        -- intros j Hj. rewrite charAt_cons by lia. apply Hall. lia.
    + assert (H0 : charAt (String a s) 0 <> Some c) by (cbv; congruence).
      destruct (IH (i + 1) found ltac:(lia)) as [[E Hall] | (Hr & Hc & Hall)].
      * left. split; [exact E|]. intros j Hj.
        destruct (Z.eq_dec j 0) as [-> | Hj0]; [exact H0|].
        rewrite charAt_cons by lia. apply Hall. lia.
      * right. split; [lia|]. split.
        -- rewrite charAt_cons by lia.
           now replace (lastIndexOfFrom c s (i + 1) found - i - 1)
             with (lastIndexOfFrom c s (i + 1) found - (i + 1)) by lia.
        -- intros j Hj. rewrite charAt_cons by lia. apply Hall. lia.
Qed.

(** [lastIndexOf]: -1 when the character does not occur, otherwise the
    index of its last occurrence. *)
Lemma lastIndexOf_spec s c :
  lastIndexOf s c = -1 /\ (forall j, 0 <= j < strlen s -> charAt s j <> Some c)
  \/
  (0 <= lastIndexOf s c < strlen s /\ charAt s (lastIndexOf s c) = Some c /\
   forall j, lastIndexOf s c < j < strlen s -> charAt s j <> Some c).
Proof.
  unfold lastIndexOf.
  destruct (lastIndexOfFrom_spec c s 0 (-1) ltac:(lia))
    as [H | (Hr & Hc & Hall)].
  - now left.
  - right. rewrite Z.sub_0_r in Hc, Hall. split; [lia|]. split; assumption.
Qed.

Lemma lastIndexOf_last s c :
  0 < strlen s -> charAt s (strlen s - 1) = Some c ->
  lastIndexOf s c = strlen s - 1.
Proof.
  intros Hlen H. destruct (lastIndexOf_spec s c) as [[_ Hall] | (Hr & _ & Hall)].
  - exfalso. apply (Hall (strlen s - 1)); [lia | exact H].
  - destruct (Z.eq_dec (lastIndexOf s c) (strlen s - 1)) as [E | Hne];
      [exact E|].
    exfalso. apply (Hall (strlen s - 1)); [lia | exact H].
Qed.

Lemma lastIndexOf_upper s c : -1 <= lastIndexOf s c < strlen s.
Proof.
  pose proof (strlen_nonneg s).
  destruct (lastIndexOf_spec s c) as [[E _] | (Hr & _)]; lia.
Qed.

Lemma indexOf_range s c : -1 <= indexOf s c < Z.max 1 (strlen s).
Proof.
  destruct (indexOf_spec s c) as [[E _] | (Hr & _)]; lia.
Qed.

(** ** Word alignment in global offsets *)

Lemma length_substring s : forall n m,
  (n + m <= String.length s)%nat ->
  String.length (String.substring n m s) = m.
Proof.
  induction s as [|a s IH]; intros n m H; simpl in H.
  - destruct n, m; simpl; lia.
  - destruct n as [|n]; simpl.
    + destruct m as [|m]; simpl; [reflexivity|]. rewrite IH; lia.
    + apply IH. lia.
Qed.

Lemma strlen_substring val a b :
  0 <= a <= b -> b <= strlen val -> strlen (substring val a b) = b - a.
Proof.
  intros Hab Hb. unfold substring, clamp, strlen in *.
  rewrite length_substring; lia.
Qed.

Lemma charAt_substring val a b i :
  0 <= a <= b -> b <= strlen val -> 0 <= i < b - a ->
  charAt (substring val a b) i = charAt val (a + i).
Proof.
  intros Hab Hb Hi. unfold substring, clamp, charAt, strlen in *.
  replace (i <? 0) with false by (symmetry; apply Z.ltb_ge; lia).
  replace (a + i <? 0) with false by (symmetry; apply Z.ltb_ge; lia).
  rewrite substring_correct1 by lia. f_equal. lia.
Qed.

Lemma startIndex_max s :
  startIndex s = Z.max (lastIndexOf s space) (lastIndexOf s lf).
Proof.
  unfold startIndex.
  destruct (lastIndexOf s space >? lastIndexOf s lf) eqn:E.
  - apply Z.gtb_lt in E. lia.
  - rewrite Z.gtb_ltb in E. apply Z.ltb_ge in E. lia.
Qed.

Lemma startIndex_upper s : -1 <= startIndex s < strlen s.
Proof.
  rewrite startIndex_max.
  pose proof (lastIndexOf_upper s space). pose proof (lastIndexOf_upper s lf).
  lia.
Qed.

(** After a separator the index is that of the separator. *)
Lemma startIndex_last s c :
  0 < strlen s -> charAt s (strlen s - 1) = Some c -> isSeparator c ->
  startIndex s = strlen s - 1.
Proof.
  intros Hlen Hc Hsep. rewrite startIndex_max.
  pose proof (lastIndexOf_upper s space). pose proof (lastIndexOf_upper s lf).
  destruct Hsep as [-> | ->].
  - rewrite (lastIndexOf_last _ _ Hlen Hc). lia.
  - rewrite (lastIndexOf_last _ _ Hlen Hc). lia.
Qed.

Lemma alignStart_unfold root val r r2 start :
  alignStart root val r r2 start =
  let strleft := substring val 0 start in
  if strlen strleft >? 0 then
    let idx := startIndex strleft in
    r2 <- (if idx =? -1 then setStart root r2 (startContainer r) 0
           else Normal r2) ;;
    if idx >? 0 then
      nl <- findIdxContainer root (idx + 1) ;;
      setStart root r2 (fst nl) (snd nl)
    else Normal r2
  else Normal r2.
Proof. reflexivity. Qed.

(** The start boundary stays where it is at the start of the text and after a
    separator that is the first character. *)
Lemma alignStart_unchanged root val r r2 start :
  start <= 0 \/ startIndex (substring val 0 start) = 0 ->
  alignStart root val r r2 start = Normal r2.
Proof.
  intros H. rewrite alignStart_unfold. cbv zeta.
  destruct (strlen (substring val 0 start) >? 0) eqn:E; [|reflexivity].
  destruct H as [H | H].
  - exfalso. apply Z.gtb_lt in E.
    unfold substring, clamp, strlen in E.
    replace (Z.max 0 (Z.min start (Z.of_nat (String.length val)))) with 0
      in E by lia.
    simpl in E. destruct val; simpl in E; lia.
  - rewrite H. reflexivity.
Qed.

(** The start boundary is moved to the position after the separator found
    before it. *)
Lemma alignStart_moved root val r r2 start ge :
  flatText root = val ->
  0 <= start < strlen val ->
  0 < startIndex (substring val 0 start) ->
  validPos root (endContainer r2) (endOffset r2) ->
  toGlobalOffset root (endContainer r2) (endOffset r2) = Some ge ->
  start <= ge ->
  exists r',
    alignStart root val r r2 start = Normal r' /\
    validPos root (startContainer r') (startOffset r') /\
    toGlobalOffset root (startContainer r') (startOffset r')
    = Some (startIndex (substring val 0 start) + 1) /\
    validPos root (endContainer r') (endOffset r') /\
    toGlobalOffset root (endContainer r') (endOffset r') = Some ge.
Proof.
  intros Hval Hstart Hidx Hve Hge Hle.
  rewrite alignStart_unfold. cbv zeta.
  pose proof (startIndex_upper (substring val 0 start)) as Hup.
  assert (Hlen : strlen (substring val 0 start) = start)
    by (rewrite strlen_substring; lia).
  rewrite Hlen in *.
  set (idx := startIndex (substring val 0 start)) in *. clearbody idx.
  replace (start >? 0) with true by (symmetry; apply Z.gtb_lt; lia).
  replace (idx =? -1) with false by (symmetry; apply Z.eqb_neq; lia).
  replace (idx >? 0) with true by (symmetry; apply Z.gtb_lt; lia).
  cbn [bind].
  destruct (findNode_inside root (idx + 1)) as (p & l & E).
  { rewrite <- flatText_length, Hval. lia. }
  unfold findIdxContainer. rewrite E. cbn [bind fst snd].
  assert (Hv : validPos root p l)
    by (apply (findNode_validPos root (idx + 1)); [lia | exact E]).
  pose proof (findNode_sound _ _ _ _ E) as Hg.
  destruct (setStart_global root r2 p l (idx + 1) ge Hv Hve Hg Hge ltac:(lia))
    as (r' & Hr & Hsc & Hso & Hve' & Hge').
  exists r'. rewrite Hsc, Hso. auto.
Qed.

Lemma alignEnd_unfold root val r r2 end_ :
  alignEnd root val r r2 end_ =
  let strright := substring val end_ (strlen val) in
  if strlen strright >? 0 then
    match endIndex strright end_ with
    | None => Normal r2
    | Some idx =>
        r2 <- (if idx =? -1 then
                 match nodeAt root (endContainer r) with
                 | None => Throw TypeError
                 | Some n => setEnd root r2 (endContainer r) (lengthProp n)
                 end
               else Normal r2) ;;
        if idx >? 0 then
          nl <- findIdxContainer root (idx + 1) ;;
          setEnd root r2 (fst nl) (snd nl - 1)
        else Normal r2
    end
  else Normal r2.
Proof. reflexivity. Qed.

(** The end boundary stays where it is at the end of the text and when [idx]
    is left unassigned. *)
Lemma alignEnd_unchanged root val r r2 end_ :
  strlen val <= end_ \/
  endIndex (substring val end_ (strlen val)) end_ = None ->
  0 <= end_ ->
  alignEnd root val r r2 end_ = Normal r2.
Proof.
  intros H H0. rewrite alignEnd_unfold. cbv zeta.
  destruct (strlen (substring val end_ (strlen val)) >? 0) eqn:E;
    [|reflexivity].
  destruct H as [H | H].
  - exfalso. apply Z.gtb_lt in E. pose proof (strlen_nonneg val).
    assert (Hc1 : clamp val end_ = strlen val) by (unfold clamp; lia).
    assert (Hc2 : clamp val (strlen val) = strlen val) by (unfold clamp; lia).
    unfold substring in E. cbv zeta in E.
    rewrite Hc1, Hc2, Z.min_id, Z.max_id, Z.sub_diag in E.
    assert (Hz : forall n s, String.length (String.substring n 0 s) = 0%nat).
    { intros n s. revert n. induction s; intros [|n]; simpl; auto. }
    unfold strlen at 1 in E. change (Z.to_nat 0) with 0%nat in E.
    rewrite Hz in E. simpl in E. lia.
  - rewrite H. reflexivity.
Qed.

(** The end boundary is moved to the index [endIndex] gives when the
    character there is not a line break. *)
Lemma alignEnd_moved root val r r2 end_ idx c gs :
  flatText root = val ->
  0 <= end_ < strlen val ->
  endIndex (substring val end_ (strlen val)) end_ = Some idx ->
  0 < idx ->
  charAt val idx = Some c -> c <> lf ->
  validPos root (startContainer r2) (startOffset r2) ->
  toGlobalOffset root (startContainer r2) (startOffset r2) = Some gs ->
  gs <= idx ->
  exists r',
    alignEnd root val r r2 end_ = Normal r' /\
    validPos root (startContainer r') (startOffset r') /\
    toGlobalOffset root (startContainer r') (startOffset r') = Some gs /\
    validPos root (endContainer r') (endOffset r') /\
    toGlobalOffset root (endContainer r') (endOffset r') = Some idx.
Proof.
  intros Hval Hend Hidx Hpos Hc Hlf Hvs Hgs Hle.
  rewrite alignEnd_unfold. cbv zeta. rewrite Hidx.
  rewrite strlen_substring by lia.
  replace (strlen val - end_ >? 0) with true
    by (symmetry; apply Z.gtb_lt; lia).
  replace (idx =? -1) with false by (symmetry; apply Z.eqb_neq; lia).
  replace (idx >? 0) with true by (symmetry; apply Z.gtb_lt; lia).
  cbn [bind].
  destruct (findNode_char root (idx + 1) c) as (p & l & E & Hl & Hv).
  { lia. }
  { now rewrite Hval, Z.add_simpl_r. }
  { exact Hlf. }
  unfold findIdxContainer. rewrite E. cbn [bind fst snd].
  pose proof (findNode_sound _ _ _ _ E) as Hg.
  destruct (validPos_text _ _ _ Hv Hl) as (s & Hn & _).
  pose proof (toGlobalOffset_shift _ _ _ _ (l - 1) _ Hn Hg) as Hg'.
  replace (idx + 1 + (l - 1 - l)) with idx in Hg' by lia.
  pose proof (validPos_pred _ _ _ Hv Hl) as Hv'.
  destruct (setEnd_global root r2 p (l - 1) gs idx Hv' Hvs Hg' Hgs Hle)
    as (r' & Hr & Hec & Heo & Hvs' & Hgs').
  exists r'. rewrite Hec, Heo. auto.
Qed.

Lemma endIndex_lower s e idx : endIndex s e = Some idx -> e - 1 <= idx.
Proof.
  unfold endIndex.
  pose proof (indexOf_range s space). pose proof (indexOf_range s lf).
  destruct (indexOf s lf =? -1) eqn:En, (indexOf s space =? -1) eqn:Es,
    ((indexOf s lf >? 0) && (indexOf s space >? 0))%bool eqn:Eb;
    cbn [option_map]; try discriminate;
    try (destruct (indexOf s space >? indexOf s lf));
    intros [= <-]; lia.
Qed.

Lemma globalOffsets_Some root r s e :
  globalOffsets root r = Some (s, e) <->
  toGlobalOffset root (startContainer r) (startOffset r) = Some s /\
  toGlobalOffset root (endContainer r) (endOffset r) = Some e.
Proof.
  unfold globalOffsets.
  destruct (toGlobalOffset root (startContainer r) (startOffset r)),
           (toGlobalOffset root (endContainer r) (endOffset r));
    split; try intros [= <- <-]; try intros [[= <-] [= <-]]; auto;
    intros [H1 H2]; discriminate.
Qed.

(** A space at the boundary itself and a line break further on leave [idx]
    unassigned. *)
Lemma endIndex_space_first s e :
  indexOf s space = 0 -> indexOf s lf <> -1 -> endIndex s e = None.
Proof.
  intros Hs Hn. unfold endIndex. rewrite Hs.
  replace (indexOf s lf =? -1) with false by (symmetry; now apply Z.eqb_neq).
  change (0 =? -1) with false. change (0 >? 0) with false.
  now rewrite andb_false_r.
Qed.

(** Word alignment between separators: when a separator is found before the
    start boundary, not as the first character of the text, and the index
    found for the end boundary is that of a character other than a line
    break, [alignWord] returns the range from the position after the first to
    the position of the second, whatever tree renders the text. *)
Theorem alignWord_between root val r start end_ idx c :
  flatText root = val ->
  validRange root r ->
  globalOffsets root r = Some (start, end_) ->
  0 <= start < end_ -> end_ < strlen val ->
  0 < startIndex (substring val 0 start) ->
  endIndex (substring val end_ (strlen val)) end_ = Some idx ->
  charAt val idx = Some c -> c <> lf ->
  exists r2,
    alignWord root val r start end_ = Normal r2 /\
    validRange root r2 /\
    globalOffsets root r2 = Some (startIndex (substring val 0 start) + 1, idx).
Proof.
  intros Hval [Hvs Hve] Hg Hse Hend Hsi Hei Hc Hlf.
  apply globalOffsets_Some in Hg. destruct Hg as [Hgs Hge].
  pose proof (startIndex_upper (substring val 0 start)) as Hup.
  rewrite strlen_substring in Hup by lia.
  pose proof (endIndex_lower _ _ _ Hei) as Hlow.
  destruct (alignStart_moved root val r r start end_ Hval ltac:(lia) Hsi
              Hve Hge ltac:(lia))
    as (r1 & E1 & Hvs1 & Hgs1 & Hve1 & Hge1).
  destruct (alignEnd_moved root val r r1 end_ idx c _ Hval ltac:(lia) Hei
              ltac:(lia) Hc Hlf Hvs1 Hgs1 ltac:(lia))
    as (r2 & E2 & Hvs2 & Hgs2 & Hve2 & Hge2).
  exists r2. unfold alignWord. rewrite E1. cbn [bind]. rewrite E2.
  split; [reflexivity|]. split; [split; assumption|].
  apply globalOffsets_Some. auto.
Qed.

(** X17: word alignment leaves a range as it is, in global offsets, when it
    starts at the start of the text or after a separator and ends at the end
    of the text or before a space. *)
Theorem alignWord_aligned root val r start end_ :
  flatText root = val ->
  validRange root r ->
  globalOffsets root r = Some (start, end_) ->
  0 <= start < end_ -> end_ <= strlen val ->
  (start = 0 \/ exists c, charAt val (start - 1) = Some c /\ isSeparator c) ->
  (end_ = strlen val \/ charAt val end_ = Some space) ->
  exists r2,
    alignWord root val r start end_ = Normal r2 /\
    globalOffsets root r2 = Some (start, end_).
Proof.
  intros Hval [Hvs Hve] Hg Hse Hend Hstart Hstop.
  apply globalOffsets_Some in Hg. destruct Hg as [Hgs Hge].
  assert (H1 : exists r1,
             alignStart root val r r start = Normal r1 /\
             validPos root (startContainer r1) (startOffset r1) /\
             toGlobalOffset root (startContainer r1) (startOffset r1)
             = Some start /\
             toGlobalOffset root (endContainer r1) (endOffset r1)
             = Some end_).
  { destruct Hstart as [-> | (c & Hc & Hsep)].
    - exists r. rewrite alignStart_unchanged by (left; lia). auto.
    - apply charAt_Some in Hc as Hpos.
      assert (Hlen : strlen (substring val 0 start) = start)
        by (rewrite strlen_substring; lia).
      assert (Hsi : startIndex (substring val 0 start) = start - 1).
      { rewrite <- Hlen at 2. apply startIndex_last with (c := c).
        - lia.
        - rewrite Hlen, charAt_substring by lia. exact Hc.
        - exact Hsep. }
      destruct (Z.eq_dec start 1) as [-> | Hne].
      + exists r. rewrite alignStart_unchanged by (right; exact Hsi). auto.
      + destruct (alignStart_moved root val r r start end_ Hval ltac:(lia)
                    ltac:(lia) Hve Hge ltac:(lia))
          as (r1 & E1 & Hvs1 & Hgs1 & _ & Hge1).
        exists r1. rewrite Hsi in Hgs1.
        replace (start - 1 + 1) with start in Hgs1 by lia. auto. }
  destruct H1 as (r1 & E1 & Hvs1 & Hgs1 & Hge1).
  unfold alignWord. rewrite E1. cbn [bind].
  destruct Hstop as [-> | Hc].
  - exists r1. rewrite alignEnd_unchanged by (try left; lia).
    split; [reflexivity|]. apply globalOffsets_Some. auto.
  - apply charAt_Some in Hc as Hlt.
    set (strright := substring val end_ (strlen val)).
    assert (Hfirst : charAt strright 0 = Some space).
    { unfold strright. rewrite charAt_substring by lia.
      now rewrite Z.add_0_r. }
    pose proof (indexOf_first _ _ Hfirst) as Hsp.
    assert (Hnl : indexOf strright lf <> 0).
    { apply indexOf_not_first with (a := space); [exact Hfirst|].
      intros E. discriminate E. }
    destruct (Z.eq_dec (indexOf strright lf) (-1)) as [Hn | Hn].
    + assert (Hei : endIndex strright end_ = Some end_).
      { rewrite endIndex_only_space by (rewrite ?Hsp; lia).
        now rewrite Hsp. }
      destruct (alignEnd_moved root val r r1 end_ end_ space start Hval
                  ltac:(lia) Hei ltac:(lia) Hc ltac:(discriminate)
                  Hvs1 Hgs1 ltac:(lia))
        as (r2 & E2 & _ & Hgs2 & _ & Hge2).
      exists r2. split; [exact E2|]. apply globalOffsets_Some. auto.
    + exists r1. rewrite alignEnd_unchanged.
      * split; [reflexivity|]. apply globalOffsets_Some. auto.
      * right. now apply endIndex_space_first.
      * lia.
Qed.


(** C3: for the text "the quick brown fox" and a raw selection with global
    offsets (5, 8), [alignWord] returns a range with global offsets (4, 9),
    the word "quick": whatever tree renders the text, and whatever positions
    of the tree the raw range has at these offsets. *)
Theorem alignWord_quick root r :
  flatText root = valFox ->
  validRange root r ->
  globalOffsets root r = Some (5, 8) ->
  exists r2,
    alignWord root valFox r 5 8 = Normal r2 /\
    globalOffsets root r2 = Some (4, 9).
Proof.
  intros Hval Hv Hg.
  destruct (alignWord_between root valFox r 5 8 9 space Hval Hv Hg)
    as (r2 & E & _ & Hg2); try reflexivity; try lia.
  - discriminate.
  - exists r2. split; [exact E | exact Hg2].
Qed.

Lemma alignWord_quick_witness :
  exists r2,
    alignWord rootFox2 valFox (mkRange [0%nat] 5 [1%nat] 1) 5 8 = Normal r2 /\
    globalOffsets rootFox2 r2 = Some (4, 9).
Proof.
  apply (alignWord_quick rootFox2 (mkRange [0%nat] 5 [1%nat] 1)).
  - reflexivity.
  - split; vm_compute; split; discriminate.
  - reflexivity.
Defined.

(** C7 (at the failing input): in "the quick brown fox" (19 characters)
    neither a space nor a line break follows offset 18, yet for the selection
    (16, 18) [alignWord] moves the end boundary back to 17 instead of forward
    to the end of the text. *)
Theorem alignWord_end_of_text :
  let strright := substring valFox 18 (strlen valFox) in
  strlen valFox = 19 /\
  indexOf strright space = -1 /\ indexOf strright lf = -1 /\
  endIndex strright 18 = Some 17 /\
  alignWord rootFox valFox (mkRange [0%nat] 16 [0%nat] 18) 16 18
  = Normal (mkRange [0%nat] 16 [0%nat] 17).
Proof. repeat split. Qed.

(** C9 (at the failing input): in "ab", line break, "cd" the range (0, 2)
    starts at the start of the text and ends before the line break, so both
    of its boundaries are word boundaries; [alignWord] does not return it: the
    end boundary is set to offset -1 of the node after the line break, which
    throws. *)
Theorem alignWord_before_line_break :
  String.get 2 valAbCd = Some lf /\
  globalOffsets rootAbCd (mkRange [0%nat] 0 [0%nat] 2) = Some (0, 2) /\
  findIdxContainer rootAbCd 3 = Normal ([2%nat], 0) /\
  alignWord rootAbCd valAbCd (mkRange [0%nat] 0 [0%nat] 2) 0 2
  = Throw IndexSizeError.
Proof. repeat split. Qed.

(** ** Granularities without an alignment *)

(** C5 (as amended): for every range, [alignRange] under sentence or
    paragraph granularity raises no error: it returns [undefined], which is
    neither the unaligned range nor any other range; the selection capturer
    then drops the range and goes on with the next one. *)
Theorem alignRange_unsupported :
  forall (g : granularity) (root : node) (val : string) (offsets : Z * Z)
         (r : Range),
    g = sentence \/ g = paragraph ->
    alignRange g root val offsets r = Normal None /\
    (forall ext text rs acc r1,
        clampEnd root r = Normal r1 ->
        captureLoop ext g val text root (r :: rs) acc =
        captureLoop ext g val text root rs acc).
Proof.
  intros g root val offsets r Hg.
  assert (H : forall o r', alignRange g root val o r' = Normal None)
    by (destruct Hg; subst g; reflexivity).
  split; [apply H|].
  intros ext text rs acc r1 Hc. cbn [captureLoop]. rewrite Hc. cbn [bind].
  rewrite H. reflexivity.
Qed.

Lemma alignRange_unsupported_witness :
  alignRange sentence rootFox valFox (5, 8) (mkRange [0%nat] 5 [0%nat] 8)
  = Normal None.
Proof.
  apply (alignRange_unsupported sentence rootFox valFox (5, 8)
           (mkRange [0%nat] 5 [0%nat] 8)).
  left. reflexivity.
Defined.

(** C5 (as stated) fails: under sentence granularity [alignRange] ends
    normally, with [undefined], and not with an UnsupportedGranularityError;
    the capturer returns an empty sequence for the selection without any
    error. *)
Lemma alignRange_unsupported_counterexample :
  alignRange sentence rootFox valFox (5, 8) (mkRange [0%nat] 5 [0%nat] 8)
  = Normal None /\
  alignRange sentence rootFox valFox (5, 8) (mkRange [0%nat] 5 [0%nat] 8)
  <> Throw UnsupportedGranularityError /\
  captureDocumentSelection plainExternals (labelled sentence) valFox rootFox
    (mkSelection false [mkRange [0%nat] 5 [0%nat] 8] "uic")
  = Normal ([], rootFox, mkSelection true [] "").
Proof. split; [reflexivity | split; [discriminate | reflexivity]]. Qed.

(** ** Restoring a saved region *)

(** C6 (as amended): for every serialized region restored by
    [fromStateJSON] from a control tag that is neither a textarea nor a
    choices tag, one region is added; its [startOffset] and [endOffset] are
    the serialized fields [start] and [end], the serialized [startOffset] and
    [endOffset] are not read, and the node paths [start] and [end] of the
    region are the empty string. *)
Theorem fromStateJSON_offsets :
  forall (item : Item) (obj : Serialized) (fromModel : FromModel),
    String.eqb (fm_type fromModel) "textarea" = false ->
    String.eqb (fm_type fromModel) "choices" = false ->
    exists r,
      regions (fromStateJSON item obj fromModel) = (regions item ++ [r])%list /\
      Region.startOffset r = v_start (s_value obj) /\
      Region.endOffset r = v_end (s_value obj) /\
      Region.start r = JStr "" /\ Region.end_ r = JStr "" /\
      (forall so eo,
          fromStateJSON item
            (mkSerialized (s_id obj) (s_from_name obj) (s_normalization obj)
               (mkValue (v_start (s_value obj)) so (v_end (s_value obj)) eo
                        (v_text (s_value obj))))
            fromModel
          = fromStateJSON item obj fromModel).
Proof.
  intros item obj fromModel Ht Hc. exists (restoreTree obj fromModel).
  unfold fromStateJSON. rewrite Ht, Hc. cbn [orb].
  repeat split; reflexivity.
Qed.

Lemma fromStateJSON_offsets_witness :
  exists r,
    regions (fromStateJSON (labelled symbol) savedWithPaths labelsModel)
    = (regions (labelled symbol) ++ [r])%list /\
    Region.startOffset r = v_start (s_value savedWithPaths) /\
    Region.endOffset r = v_end (s_value savedWithPaths) /\
    Region.start r = JStr "" /\ Region.end_ r = JStr "" /\
    (forall so eo,
        fromStateJSON (labelled symbol)
          (mkSerialized (s_id savedWithPaths) (s_from_name savedWithPaths)
             (s_normalization savedWithPaths)
             (mkValue (v_start (s_value savedWithPaths)) so
                      (v_end (s_value savedWithPaths)) eo
                      (v_text (s_value savedWithPaths))))
          labelsModel
        = fromStateJSON (labelled symbol) savedWithPaths labelsModel).
Proof.
  apply (fromStateJSON_offsets (labelled symbol) savedWithPaths labelsModel);
    reflexivity.
Defined.

(** C6 (as stated) fails: a serialized region with the node path
    "/p[1]/text()[1]" in [start] and [end] and the integers 7 and 9 in
    [startOffset] and [endOffset] is restored as a region whose offsets are
    the node path, not 7 and 9. *)
Lemma fromStateJSON_offsets_counterexample :
  v_startOffset (s_value savedWithPaths) = JNum 7 /\
  v_endOffset (s_value savedWithPaths) = JNum 9 /\
  map (fun r => (Region.startOffset r, Region.endOffset r))
      (regions (fromStateJSON (labelled symbol) savedWithPaths labelsModel))
  = [(JStr "/p[1]/text()[1]", JStr "/p[1]/text()[1]")].
Proof. repeat split. Qed.

(** ** Capturing the selection *)

(** C8: for a collapsed selection the capturer returns the empty sequence,
    leaving the tree and the selection as they are, and the mouse-up creates
    no region: it leaves the text object as it is. *)
Theorem collapsed_selection_no_region :
  forall (ext : Externals) (item : Item) (val : string) (root : node)
         (sel : Selection),
    isCollapsed sel = true ->
    captureDocumentSelection ext item val root sel = Normal ([], root, sel) /\
    onMouseUp ext item val root sel = Normal (mkMouseUp item root sel false).
Proof.
  intros ext item val root sel Hc.
  assert (Hcap : captureDocumentSelection ext item val root sel
                 = Normal ([], root, sel))
    by (unfold captureDocumentSelection; now rewrite Hc).
  split; [exact Hcap|].
  unfold onMouseUp. rewrite Hcap.
  destruct (selectionenabled item); cbn [negb bind fst snd]; [|reflexivity].
  destruct (activeStates item) as [[|s ss]|]; reflexivity.
Qed.

Lemma collapsed_selection_no_region_witness :
  captureDocumentSelection plainExternals (labelled symbol) valFox rootFox
    (mkSelection true [mkRange [0%nat] 5 [0%nat] 5] "")
  = Normal ([], rootFox, mkSelection true [mkRange [0%nat] 5 [0%nat] 5] "")
  /\
  onMouseUp plainExternals (labelled symbol) valFox rootFox
    (mkSelection true [mkRange [0%nat] 5 [0%nat] 5] "")
  = Normal (mkMouseUp (labelled symbol) rootFox
              (mkSelection true [mkRange [0%nat] 5 [0%nat] 5] "") false).
Proof.
  apply (collapsed_selection_no_region plainExternals (labelled symbol) valFox
           rootFox (mkSelection true [mkRange [0%nat] 5 [0%nat] 5] "")).
  reflexivity.
Defined.

(** C10: a mouse-up that ends normally adds at most one region to the text
    object, however many ranges the selection has; when it adds one, the
    region is made of the first range the capturer returned, and the other
    captured ranges are not used. *)
Theorem onMouseUp_first_range_only :
  forall (ext : Externals) (item : Item) (val : string) (root : node)
         (sel : Selection) (m : MouseUp),
    onMouseUp ext item val root sel = Normal m ->
    (List.length (regions (m_item m)) <= S (List.length (regions item)))%nat /\
    (regions (m_item m) = regions item \/
     exists first rest root1 sel1 r,
       captureDocumentSelection ext item val root sel
       = Normal (first :: rest, root1, sel1) /\
       regions (m_item m) = (regions item ++ [r])%list /\
       Region.startOffset r = JNum (Normed.startOffset first) /\
       Region.endOffset r = JNum (Normed.endOffset first) /\
       Region.text r = JStr (Normed.text first) /\
       Region._range r = Some (Normed._range first)).
Proof.
  intros ext item val root sel m. unfold onMouseUp.
  destruct (selectionenabled item); cbn [negb];
    [|intros [= <-]; cbn; auto].
  destruct (captureDocumentSelection ext item val root sel)
    as [[[selected root1] sel1]|e] eqn:Hcap; cbn [bind fst snd];
    [|discriminate].
  destruct (activeStates item) as [[|s ss]|] eqn:Hact;
    try (intros [= <-]; cbn; auto).
  destruct selected as [|first rest]; [intros [= <-]; cbn; auto|].
  unfold addRegion. rewrite Hact. cbn.
  intros [= <-]. cbn. split.
  - rewrite length_app. cbn. lia.
  - right. eexists first, rest, root1, sel1, _.
    split; [reflexivity|]. split; [reflexivity|]. cbn. auto.
Qed.

Lemma onMouseUp_first_range_only_witness :
  exists m,
    onMouseUp plainExternals (labelled symbol) valAbCd rootAbCd twoRanges
    = Normal m /\
    (List.length (regions (m_item m))
     <= S (List.length (regions (labelled symbol))))%nat.
Proof.
  eexists. split; [reflexivity|].
  apply (onMouseUp_first_range_only plainExternals (labelled symbol) valAbCd
           rootAbCd twoRanges).
  reflexivity.
Defined.

(** Two ranges are captured from the selection of the example, one region is
    created, from the first. *)
Lemma onMouseUp_two_ranges :
  (exists n1 n2 root1 sel1,
      captureDocumentSelection plainExternals (labelled symbol) valAbCd
        rootAbCd twoRanges = Normal ([n1; n2], root1, sel1)) /\
  exists m,
    onMouseUp plainExternals (labelled symbol) valAbCd rootAbCd twoRanges
    = Normal m /\
    map (fun r => (Region.startOffset r, Region.endOffset r))
        (regions (m_item m)) = [(JNum 0, JNum 1)].
Proof.
  split.
  - do 4 eexists. reflexivity.
  - eexists. split; reflexivity.
Qed.

(** ** Failures of single items *)

Lemma materialize_materialized ext root r r' root' :
  materialize ext root r = Normal (r', root') -> materialized r'.
Proof.
  unfold materialize.
  destruct (findNodeOf root (Region.startOffset r)) as [[sn sl]|];
    [|discriminate].
  destruct (checkBoundary root sn sl); cbn [bind]; [|discriminate].
  destruct (findNodeOf root (Region.endOffset r)) as [[en el]|];
    [|discriminate].
  destruct (setEnd root _ en el) as [range|]; cbn [bind]; [|discriminate].
  destruct (splitBoundaries ext root range); cbn [bind]; [|discriminate].
  intros [= <- _]. unfold materialized. discriminate.
Qed.

(** The regions a pass has gone through without an exception are
    materialized, and the pass goes on with the others from the tree they
    left. *)
Lemma handleUpdate_app ext : forall pre root pre' root1 rest,
  handleUpdate ext root pre = (pre', root1, None) ->
  handleUpdate ext root (pre ++ rest) =
  (let '(out, root2, e) := handleUpdate ext root1 rest in
   (pre' ++ out, root2, e))%list
  /\ Forall materialized pre'.
Proof.
  induction pre as [|r pre IH]; intros root pre' root1 rest.
  - cbn. intros [= <- <-]. split; [|constructor].
    now destruct (handleUpdate ext root rest) as [[out root2] e].
  - cbn [handleUpdate app].
    destruct (materialize ext root r) as [[r' root']|e] eqn:Hm;
      [|discriminate].
    destruct (handleUpdate ext root' pre) as [[out0 root0] e0] eqn:Hpre.
    intros [= <- <- ->].
    destruct (IH _ _ _ rest Hpre) as [Happ Hall]. rewrite Happ. split.
    + now destruct (handleUpdate ext root0 rest) as [[out root2] e].
    + constructor; [eapply materialize_materialized; eauto | exact Hall].
Qed.

(** The region whose body throws ends the pass: it and the regions after it
    are left as they were. *)
Lemma handleUpdate_abort ext root r rest e :
  materialize ext root r = Throw e ->
  handleUpdate ext root (r :: rest) = (r :: rest, root, Some e).
Proof. intros H. cbn. now rewrite H. Qed.

(** C4 (as amended): a selection range whose normalization fails is dropped
    from the returned sequence and the remaining ranges are still processed;
    in a materialization pass, the regions that were processed before a
    failure are materialized, whatever happens to the regions after them. *)
Theorem failure_isolation :
  forall (ext : Externals) (g : granularity) (val text : string)
         (root : node) (r r1 : Range) (r2 : option Range) (e : exn)
         (rs : list Range) (acc : list Normed.t)
         (root0 root1 : node) (pre pre' rest : list Region.t),
    clampEnd root r = Normal r1 ->
    alignRange g root val (mainOffsets ext root) r1 = Normal r2 ->
    normalize ext root text r2 = Throw e ->
    handleUpdate ext root0 pre = (pre', root1, None) ->
    captureLoop ext g val text root (r :: rs) acc
    = captureLoop ext g val text root rs acc
    /\
    (fst (fst (handleUpdate ext root0 (pre ++ rest)))
     = (pre' ++ fst (fst (handleUpdate ext root1 rest)))%list
     /\ Forall materialized pre').
Proof.
  intros ext g val text root r r1 r2 e rs acc root0 root1 pre pre' rest
         Hc Ha Hn Hpre.
  split.
  - cbn [captureLoop]. rewrite Hc. cbn [bind]. rewrite Ha. cbn [bind].
    now rewrite Hn.
  - destruct (handleUpdate_app ext pre root0 pre' root1 rest Hpre)
      as [Happ Hall].
    split; [|exact Hall]. rewrite Happ.
    now destruct (handleUpdate ext root1 rest) as [[out root2] e2].
Qed.

Lemma failure_isolation_witness :
  captureLoop strictExternals symbol valAbCd "cda" rootAbCd
    [mkRange [2%nat] 0 [2%nat] 2; mkRange [0%nat] 0 [0%nat] 1] []
  = captureLoop strictExternals symbol valAbCd "cda" rootAbCd
      [mkRange [0%nat] 0 [0%nat] 1] []
  /\
  (fst (fst (handleUpdate strictExternals rootAbCd
               ([storedRegion 0 1] ++ [storedRegion 9 9; storedRegion 3 5])))
   = ([Region.setRange (storedRegion 0 1) (mkRange [0%nat] 0 [0%nat] 1)]
      ++ fst (fst (handleUpdate strictExternals rootAbCd
                     [storedRegion 9 9; storedRegion 3 5])))%list
   /\ Forall materialized
        [Region.setRange (storedRegion 0 1) (mkRange [0%nat] 0 [0%nat] 1)]).
Proof.
  apply (failure_isolation strictExternals symbol valAbCd "cda" rootAbCd
           (mkRange [2%nat] 0 [2%nat] 2) (mkRange [2%nat] 0 [2%nat] 2)
           (Some (mkRange [2%nat] 0 [2%nat] 2)) (Raised "RangeError")
           [mkRange [0%nat] 0 [0%nat] 1] [] rootAbCd rootAbCd
           [storedRegion 0 1]
           [Region.setRange (storedRegion 0 1) (mkRange [0%nat] 0 [0%nat] 1)]
           [storedRegion 9 9; storedRegion 3 5]);
    reflexivity.
Defined.

(** C4 (as stated) fails for materialization: of three regions over "ab",
    line break, "cd", the second has offsets beyond the text; the pass ends
    with a TypeError at it, and the third region, which is materialized when
    it is processed alone, is left without a range. *)
Lemma failure_isolation_counterexample :
  handleUpdate plainExternals rootAbCd
    [storedRegion 0 1; storedRegion 9 9; storedRegion 3 5]
  = ([Region.setRange (storedRegion 0 1) (mkRange [0%nat] 0 [0%nat] 1);
      storedRegion 9 9; storedRegion 3 5], rootAbCd, Some TypeError)
  /\ Region._range (storedRegion 3 5) = None
  /\ handleUpdate plainExternals rootAbCd [storedRegion 3 5]
     = ([Region.setRange (storedRegion 3 5) (mkRange [2%nat] 0 [2%nat] 2)],
        rootAbCd, None).
Proof. repeat split. Qed.

(** * Further properties *)

(** ** Which offsets [findNode] resolves *)

Lemma textLengths_split cs : forall j c,
  nth_error cs j = Some c ->
  textLengths cs
  = textLengths (firstn j cs) + textLength c + textLengths (skipn (S j) cs).
Proof.
  induction cs as [|a cs IH]; intros j c H.
  - destruct j; discriminate.
  - destruct j as [|j]; simpl in H.
    + injection H as ->. simpl. lia.
    + specialize (IH j c H). simpl in *. lia.
Qed.

Lemma lastLeafIn_split cs : forall j c,
  nth_error cs j = Some c ->
  lastLeafIn cs =
  match lastLeafIn (skipn (S j) cs) with
  | Some b => Some b
  | None =>
      match lastLeaf c with
      | Some b => Some b
      | None => lastLeafIn (firstn j cs)
      end
  end.
Proof.
  induction cs as [|a cs IH]; intros j c H.
  - destruct j; discriminate.
  - destruct j as [|j]; simpl in H.
    + injection H as ->. simpl. destruct (lastLeafIn cs); [reflexivity|].
      now destruct (lastLeaf c).
    + change (skipn (S (S j)) (a :: cs)) with (skipn (S j) cs).
      change (firstn (S j) (a :: cs)) with (a :: firstn j cs).
      cbn [lastLeafIn]. rewrite (IH j c H).
      destruct (lastLeafIn (skipn (S j) cs)); [reflexivity|].
      destruct (lastLeaf c); [reflexivity|].
      reflexivity.
Qed.

(** A subtree that contributes nothing has no line break in it. *)
Lemma textLength_zero_lastLeaf n :
  textLength n = 0 -> lastLeaf n <> Some false.
Proof.
  induction n as [s | name cs IH] using node_induction; [discriminate|].
  rewrite textLength_Elem, lastLeaf_Elem. intros H.
  pose proof (textLengths_nonneg cs) as Hcs.
  destruct (isBR name); [lia|].
  assert (Hl : lastLeafIn cs <> Some false).
  { assert (Hz : textLengths cs = 0) by lia. clear H Hcs.
    induction IH as [|c cs Hc _ IHcs]; [discriminate|].
    simpl in Hz |- *.
    pose proof (textLength_nonneg c). pose proof (textLengths_nonneg cs).
    destruct (lastLeafIn cs) as [b|] eqn:E.
    - apply IHcs. lia.
    - apply Hc. lia. }
  destruct (lastLeafIn cs) as [b|]; [exact Hl | discriminate].
Qed.

Lemma textLengths_zero_lastLeafIn cs :
  textLengths cs = 0 -> lastLeafIn cs <> Some false.
Proof.
  induction cs as [|c cs IH]; [discriminate|]. simpl. intros Hz.
  pose proof (textLength_nonneg c). pose proof (textLengths_nonneg cs).
  destruct (lastLeafIn cs) as [b|] eqn:E.
  - apply IH. lia.
  - apply textLength_zero_lastLeaf. lia.
Qed.

(** A position is found either before the end of the subtree, or at its end
    when the subtree ends in a text node. *)
Lemma traverse_Found_end n : forall left p l,
  0 <= left -> traverse n left = Found p l ->
  left < textLength n \/ lastLeaf n = Some true.
Proof.
  induction n as [s | name cs IH] using node_induction; intros left p l H0.
  - intros _. now right.
  - rewrite traverse_Elem, textLength_Elem, lastLeaf_Elem.
    assert (Hcs : forall left0, 0 <= left0 ->
               traverseChildren cs 0%nat left0 = Found p l ->
               left0 < textLengths cs \/ lastLeafIn cs = Some true).
    { intros left0 Hl0 H.
      apply traverseChildren_Found_nonneg in H; [|exact Hl0].
      destruct H as (j & c & p' & _ & Hnth & Hpos & Hc).
      rewrite Forall_forall in IH.
      pose proof (IH c (nth_error_In _ _ Hnth) _ _ _ Hpos Hc) as Hend.
      pose proof (traverse_Found_le _ _ _ _ Hpos Hc) as Hle.
      pose proof (textLengths_split _ _ _ Hnth) as Hsplit.
      pose proof (textLengths_nonneg (skipn (S j) cs)) as Hrest.
      destruct Hend as [Hlt | Hlast]; [left; lia|].
      destruct (Z.eq_dec (textLengths (skipn (S j) cs)) 0) as [Hz | Hnz];
        [|left; lia].
      right. rewrite (lastLeafIn_split _ _ _ Hnth), Hlast.
      pose proof (textLengths_zero_lastLeafIn _ Hz) as Hnf.
      destruct (lastLeafIn (skipn (S j) cs)) as [[|]|]; congruence. }
    pose proof (textLengths_nonneg cs).
    destruct (isBR name).
    + destruct (left - 1 <? 0) eqn:E.
      * intros _. left. lia.
      * apply Z.ltb_ge in E. intros Hf.
        destruct (Hcs (left - 1) ltac:(lia) Hf) as [Hlt | Hl]; [left; lia|].
        right. now rewrite Hl.
    + intros Hf. destruct (Hcs _ H0 Hf) as [Hlt | Hl]; [left; lia|].
      right. now rewrite Hl.
Qed.

(** X1: an offset that is not negative is resolved by [findNode] exactly
    when it lies before the end of the text, or at the end of a text whose
    last text or line-break node is a text node; beyond the text, and at the
    end of a text that ends in a line break (or has no text at all), the
    result is [undefined]. *)
Theorem findNode_resolves_iff :
  forall (root : node) (g : Z),
    0 <= g ->
    (findNode root g <> None <->
     g < textLength root \/
     (g = textLength root /\ lastLeaf root = Some true)).
Proof.
  intros root g H0. split.
  - unfold findNode.
    destruct (traverse root g) as [p l | left] eqn:E; [|congruence].
    intros _. pose proof (traverse_Found_le _ _ _ _ H0 E) as Hle.
    destruct (traverse_Found_end _ _ _ _ H0 E) as [Hlt | Hl]; [now left|].
    destruct (Z.eq_dec g (textLength root)); [right; auto | left; lia].
  - intros [Hlt | [-> Hl]].
    + destruct (findNode_inside root g ltac:(lia)) as (p & l & E).
      rewrite E. discriminate.
    + destruct (findNode_at_end root Hl) as (p & l & E).
      rewrite E. discriminate.
Qed.

Lemma findNode_resolves_iff_witness :
  findNode rootAbBr 3 <> None <->
  3 < textLength rootAbBr \/
  (3 = textLength rootAbBr /\ lastLeaf rootAbBr = Some true).
Proof.
  apply (findNode_resolves_iff rootAbBr 3). lia.
Defined.

(** X2: for an offset that is not negative, the position [findNode] returns
    is a boundary a Range accepts: a text node of the tree with a local
    offset between 0 and its length, or a line-break element with local
    offset 0; [setStart] and [setEnd] do not throw on it. *)
Theorem findNode_boundary :
  forall (root : node) (g : Z) (p : path) (l : Z),
    0 <= g ->
    findNode root g = Some (p, l) ->
    (exists n,
        nodeAt root p = Some n /\
        match n with
        | Text s => 0 <= l <= strlen s
        | Elem name _ => isBR name = true /\ l = 0
        end) /\
    checkBoundary root p l = Normal tt.
Proof.
  intros root g p l H0 E.
  pose proof (findNode_validPos _ _ _ _ H0 E) as Hv.
  split; [|now apply validPos_checkBoundary].
  unfold validPos in Hv.
  destruct (nodeAt root p) as [n|]; [|contradiction].
  exists n. split; [reflexivity|]. destruct n; exact Hv.
Qed.

Lemma findNode_boundary_witness :
  (exists n,
      nodeAt rootAbCd [2%nat] = Some n /\
      match n with
      | Text s => 0 <= 0 <= strlen s
      | Elem name _ => isBR name = true /\ 0 = 0
      end) /\
  checkBoundary rootAbCd [2%nat] 0 = Normal tt.
Proof.
  apply (findNode_boundary rootAbCd 3 [2%nat] 0).
  - lia.
  - reflexivity.
Defined.

Lemma bpCompare_Eq p : forall q o o',
  bpCompare p o q o' = Eq -> p = q /\ o = o'.
Proof.
  induction p as [|c p IH]; intros q o o'; destruct q as [|d q]; simpl.
  - intros H. apply Z.compare_eq in H. auto.
  - destruct (o <=? Z.of_nat d); discriminate.
  - destruct (o' <=? Z.of_nat c); discriminate.
  - destruct (Nat.compare_spec c d) as [-> | |]; try discriminate.
    intros H. apply IH in H. destruct H as [-> ->]. auto.
Qed.

(** The positions of two offsets are in the order of the offsets. *)
Lemma findNode_order root g1 g2 p1 l1 p2 l2 :
  0 <= g1 -> 0 <= g2 ->
  findNode root g1 = Some (p1, l1) ->
  findNode root g2 = Some (p2, l2) ->
  (g1 < g2 -> bpCompare p1 l1 p2 l2 = Lt) /\
  (g1 = g2 -> bpCompare p1 l1 p2 l2 = Eq) /\
  (g2 < g1 -> bpCompare p1 l1 p2 l2 = Gt).
Proof.
  intros H1 H2 E1 E2.
  pose proof (findNode_validPos _ _ _ _ H1 E1) as V1.
  pose proof (findNode_validPos _ _ _ _ H2 E2) as V2.
  pose proof (findNode_sound _ _ _ _ E1) as G1.
  pose proof (findNode_sound _ _ _ _ E2) as G2.
  destruct (bpCompare_global p1 root p2 l1 l2 g1 g2 V1 V2 G1 G2) as [Hgt Hlt].
  pose proof (bpCompare_Eq p1 p2 l1 l2) as Heq.
  repeat split.
  - intros Hlt12. destruct (bpCompare p1 l1 p2 l2).
    + destruct (Heq eq_refl) as [-> ->]. rewrite G1 in G2. injection G2. lia.
    + reflexivity.
    + specialize (Hgt eq_refl). lia.
  - intros ->. rewrite E1 in E2. injection E2 as <- <-.
    clear. induction p1 as [|c p IH]; simpl.
    + apply Z.compare_refl.
    + now rewrite Nat.compare_refl.
  - intros Hlt21. destruct (bpCompare p1 l1 p2 l2).
    + destruct (Heq eq_refl) as [-> ->]. rewrite G1 in G2. injection G2. lia.
    + specialize (Hlt eq_refl). lia.
    + reflexivity.
Qed.

(** X3: [findNode] keeps the order: for offsets that are not negative, the
    position of the smaller one is before the position of the larger one in
    the DOM's order of boundary points, and equal offsets give the same
    position. *)
Theorem findNode_monotone :
  forall (root : node) (g1 g2 : Z) (p1 p2 : path) (l1 l2 : Z),
    0 <= g1 -> 0 <= g2 ->
    findNode root g1 = Some (p1, l1) ->
    findNode root g2 = Some (p2, l2) ->
    bpCompare p1 l1 p2 l2 = (g1 ?= g2).
Proof.
  intros root g1 g2 p1 p2 l1 l2 H1 H2 E1 E2.
  destruct (findNode_order root g1 g2 p1 l1 p2 l2 H1 H2 E1 E2)
    as (Hlt & Heq & Hgt).
  destruct (Z.compare_spec g1 g2); auto.
Qed.

Lemma findNode_monotone_witness :
  bpCompare [0%nat] 1 [2%nat] 1 = (1 ?= 4).
Proof.
  apply (findNode_monotone rootAbCd 1 4 [0%nat] [2%nat] 1 1);
    try lia; reflexivity.
Defined.

(** ** Materializing regions *)

(** What the body of the [forEach] does once both offsets are resolved. *)
Lemma materialize_resolved ext root r s e sn sl en el :
  Region.startOffset r = JNum s -> Region.endOffset r = JNum e ->
  0 <= s -> 0 <= e ->
  findNode root s = Some (sn, sl) -> findNode root e = Some (en, el) ->
  materialize ext root r =
  (split <- splitBoundaries ext root
              (if e <? s then mkRange en el en el else mkRange sn sl en el) ;;
   Normal (Region.setRange r (snd split),
           createSpans ext (fst split) (Region.setRange r (snd split)))).
Proof.
  intros Hs He H0s H0e Es Ee. unfold materialize.
  rewrite Hs, He. cbn [findNodeOf]. rewrite Es, Ee.
  pose proof (validPos_checkBoundary _ _ _
                (findNode_validPos _ _ _ _ H0s Es)) as Cs.
  pose proof (validPos_checkBoundary _ _ _
                (findNode_validPos _ _ _ _ H0e Ee)) as Ce.
  rewrite Cs. cbn [bind]. unfold setEnd. rewrite Ce.
  cbn [bind startContainer startOffset].
  destruct (findNode_order root e s en el sn sl H0e H0s Ee Es)
    as (Hlt & Heq & Hgt).
  destruct (Z.lt_total e s) as [H | [H | H]].
  - rewrite (Hlt H).
    now replace (e <? s) with true by (symmetry; apply Z.ltb_lt; lia).
  - rewrite (Heq H).
    now replace (e <? s) with false by (symmetry; apply Z.ltb_ge; lia).
  - rewrite (Hgt H).
    now replace (e <? s) with false by (symmetry; apply Z.ltb_ge; lia).
Qed.

(** X4: a region whose offsets are resolved numbers, the start not after the
    end, is attached to the range that [splitBoundaries] makes of the range
    from the position of its start offset to the position of its end offset:
    the two [findNode] results are legal boundaries and the range is not
    collapsed by [setEnd]. *)
Theorem materialize_in_order :
  forall (ext : Externals) (root : node) (r : Region.t) (s e : Z)
         (sn en : path) (sl el : Z),
    Region.startOffset r = JNum s -> Region.endOffset r = JNum e ->
    0 <= s <= e ->
    findNode root s = Some (sn, sl) -> findNode root e = Some (en, el) ->
    materialize ext root r =
    (split <- splitBoundaries ext root (mkRange sn sl en el) ;;
     Normal (Region.setRange r (snd split),
             createSpans ext (fst split) (Region.setRange r (snd split)))).
Proof.
  intros ext root r s e sn en sl el Hs He Hse Es Ee.
  rewrite (materialize_resolved ext root r s e sn sl en el Hs He
             ltac:(lia) ltac:(lia) Es Ee).
  now replace (e <? s) with false by (symmetry; apply Z.ltb_ge; lia).
Qed.

Lemma materialize_in_order_witness :
  materialize plainExternals rootAbCd (storedRegion 1 4) =
  (split <- splitBoundaries plainExternals rootAbCd
              (mkRange [0%nat] 1 [2%nat] 1) ;;
   Normal (Region.setRange (storedRegion 1 4) (snd split),
           createSpans plainExternals (fst split)
             (Region.setRange (storedRegion 1 4) (snd split)))).
Proof.
  apply (materialize_in_order plainExternals rootAbCd (storedRegion 1 4) 1 4
           [0%nat] [2%nat] 1 1); try reflexivity. lia.
Defined.

(** X5: a region whose end offset is before its start offset (both resolved,
    neither negative) is attached to an empty range at the position of the
    end offset: [setEnd] before the start moves the start too. *)
Theorem materialize_reversed :
  forall (ext : Externals) (root : node) (r : Region.t) (s e : Z)
         (sn en : path) (sl el : Z),
    Region.startOffset r = JNum s -> Region.endOffset r = JNum e ->
    0 <= e < s ->
    findNode root s = Some (sn, sl) -> findNode root e = Some (en, el) ->
    materialize ext root r =
    (split <- splitBoundaries ext root (mkRange en el en el) ;;
     Normal (Region.setRange r (snd split),
             createSpans ext (fst split) (Region.setRange r (snd split)))).
Proof.
  intros ext root r s e sn en sl el Hs He Hes Es Ee.
  rewrite (materialize_resolved ext root r s e sn sl en el Hs He
             ltac:(lia) ltac:(lia) Es Ee).
  now replace (e <? s) with true by (symmetry; apply Z.ltb_lt; lia).
Qed.

Lemma materialize_reversed_witness :
  materialize plainExternals rootAbCd (storedRegion 4 1) =
  (split <- splitBoundaries plainExternals rootAbCd
              (mkRange [0%nat] 1 [0%nat] 1) ;;
   Normal (Region.setRange (storedRegion 4 1) (snd split),
           createSpans plainExternals (fst split)
             (Region.setRange (storedRegion 4 1) (snd split)))).
Proof.
  apply (materialize_reversed plainExternals rootAbCd (storedRegion 4 1) 4 1
           [2%nat] [0%nat] 1 1); try reflexivity. lia.
Defined.

Lemma materialize_data ext root r r' root' :
  materialize ext root r = Normal (r', root') ->
  regionData r' = regionData r /\ materialized r'.
Proof.
  intros H. split; [|eapply materialize_materialized; eauto].
  unfold materialize in H.
  destruct (findNodeOf root (Region.startOffset r)) as [[sn sl]|];
    [|discriminate].
  destruct (checkBoundary root sn sl); cbn [bind] in H; [|discriminate].
  destruct (findNodeOf root (Region.endOffset r)) as [[en el]|];
    [|discriminate].
  destruct (setEnd root _ en el) as [range|]; cbn [bind] in H; [|discriminate].
  destruct (splitBoundaries ext root range); cbn [bind] in H; [|discriminate].
  injection H as <- _. reflexivity.
Qed.

Lemma handleUpdate_regionData ext : forall rs root,
  map regionData (fst (fst (handleUpdate ext root rs))) = map regionData rs.
Proof.
  induction rs as [|r rs IH]; intros root; [reflexivity|].
  cbn [handleUpdate].
  destruct (materialize ext root r) as [[r' root']|e] eqn:E; [|reflexivity].
  specialize (IH root').
  destruct (handleUpdate ext root' rs) as [[out root''] e'].
  cbn [fst map] in *. rewrite IH.
  now rewrite (proj1 (materialize_data _ _ _ _ _ E)).
Qed.

(** X6: a materialization pass never changes what the regions persist, nor
    their number or order: whether it ends normally or with an exception,
    the regions it leaves are as many as it was given and have, one for one,
    the fields [pid], [startOffset], [endOffset], [start], [end], [text] and
    [states] they had. *)
Theorem handleUpdate_keeps_data :
  forall (ext : Externals) (rs : list Region.t) (root : node),
    let out := fst (fst (handleUpdate ext root rs)) in
    map regionData out = map regionData rs /\
    List.length out = List.length rs.
Proof.
  intros ext rs root out.
  pose proof (handleUpdate_regionData ext rs root) as Hd. fold out in Hd.
  split; [exact Hd|].
  apply (f_equal (@List.length _)) in Hd. now rewrite !length_map in Hd.
Qed.

Lemma inText_materialize ext root r :
  keepsText ext -> inText root r ->
  exists r' root',
    materialize ext root r = Normal (r', root') /\
    textLength root' = textLength root.
Proof.
  intros [Hsplit Hspans] (s & e & Hs & He & Hse & Hlt).
  destruct (findNode_inside root s ltac:(lia)) as (sn & sl & Es).
  destruct (findNode_inside root e ltac:(lia)) as (en & el & Ee).
  rewrite (materialize_resolved ext root r s e sn sl en el Hs He
             ltac:(lia) ltac:(lia) Es Ee).
  replace (e <? s) with false by (symmetry; apply Z.ltb_ge; lia).
  destruct (Hsplit root (mkRange sn sl en el)) as (root' & r' & E & Hlen).
  rewrite E. cbn [bind fst snd]. do 2 eexists. split; [reflexivity|].
  now rewrite Hspans.
Qed.

Lemma inText_textLength root root' r :
  textLength root' = textLength root -> inText root r -> inText root' r.
Proof.
  intros Hlen (s & e & Hs & He & Hse & Hlt). exists s, e.
  rewrite Hlen. auto.
Qed.

(** A pass over regions inside the text goes through all of them. *)
Lemma handleUpdate_inText ext : forall rs root,
  keepsText ext ->
  Forall (inText root) rs ->
  exists out root',
    handleUpdate ext root rs = (out, root', None) /\
    Forall materialized out /\
    textLength root' = textLength root.
Proof.
  induction rs as [|r rs IH]; intros root Hext Hall.
  - exists [], root. repeat split. constructor.
  - inversion Hall as [|? ? Hr Hrs]; subst.
    destruct (inText_materialize ext root r Hext Hr) as (r' & root1 & E & Hlen).
    assert (Hrs' : Forall (inText root1) rs).
    { eapply Forall_impl; [|exact Hrs]. intros x.
      now apply inText_textLength. }
    destruct (IH root1 Hext Hrs') as (out & root2 & E2 & Hm & Hlen2).
    exists (r' :: out), root2. cbn [handleUpdate]. rewrite E, E2.
    repeat split.
    + constructor; [|exact Hm]. eapply materialize_materialized; eauto.
    + lia.
Qed.

(** X7: when every region has numeric offsets inside the text, the start not
    after the end, and the collaborators keep the text, a materialization
    pass ends without an exception, leaves every region attached to a range
    and as many regions as it was given. *)
Theorem handleUpdate_all_materialized :
  forall (ext : Externals) (rs : list Region.t) (root : node),
    keepsText ext ->
    Forall (inText root) rs ->
    exists out root',
      handleUpdate ext root rs = (out, root', None) /\
      Forall materialized out /\
      List.length out = List.length rs.
Proof.
  intros ext rs root Hext Hall.
  destruct (handleUpdate_inText ext rs root Hext Hall)
    as (out & root' & E & Hm & _).
  exists out, root'. split; [exact E|]. split; [exact Hm|].
  pose proof (handleUpdate_regionData ext rs root) as Hd.
  rewrite E in Hd. cbn [fst] in Hd.
  apply (f_equal (@List.length _)) in Hd. now rewrite !length_map in Hd.
Qed.

Lemma plainExternals_keepsText : keepsText plainExternals.
Proof.
  split.
  - intros root r. exists root, r. split; reflexivity.
  - intros root r. reflexivity.
Qed.

Lemma handleUpdate_all_materialized_witness :
  exists out root',
    handleUpdate plainExternals rootAbCd [storedRegion 0 1; storedRegion 3 4]
    = (out, root', None) /\
    Forall materialized out /\
    List.length out = List.length [storedRegion 0 1; storedRegion 3 4].
Proof.
  apply (handleUpdate_all_materialized plainExternals
           [storedRegion 0 1; storedRegion 3 4] rootAbCd).
  - exact plainExternals_keepsText.
  - repeat constructor.
    + exists 0, 1. repeat split; try reflexivity; discriminate.
    + exists 3, 4. repeat split; try reflexivity; discriminate.
Defined.

(** X8: the first region whose body throws ends the pass with its exception:
    the regions before it are attached to ranges, and it and all the regions
    after it are left exactly as they were. *)
Theorem handleUpdate_first_failure :
  forall (ext : Externals) (root root1 : node) (pre pre' post : list Region.t)
         (r : Region.t) (e : exn),
    handleUpdate ext root pre = (pre', root1, None) ->
    materialize ext root1 r = Throw e ->
    handleUpdate ext root (pre ++ r :: post)
    = ((pre' ++ r :: post)%list, root1, Some e)
    /\ Forall materialized pre'.
Proof.
  intros ext root root1 pre pre' post r e Hpre Hr.
  destruct (handleUpdate_app ext pre root pre' root1 (r :: post) Hpre)
    as [Happ Hall].
  split; [|exact Hall]. rewrite Happ.
  now rewrite (handleUpdate_abort ext root1 r post e Hr).
Qed.

Lemma handleUpdate_first_failure_witness :
  handleUpdate plainExternals rootAbCd
    ([storedRegion 0 1] ++ storedRegion 9 9 :: [storedRegion 3 5])
  = (([Region.setRange (storedRegion 0 1) (mkRange [0%nat] 0 [0%nat] 1)]
      ++ storedRegion 9 9 :: [storedRegion 3 5])%list,
     rootAbCd, Some TypeError)
  /\ Forall materialized
       [Region.setRange (storedRegion 0 1) (mkRange [0%nat] 0 [0%nat] 1)].
Proof.
  apply (handleUpdate_first_failure plainExternals rootAbCd rootAbCd
           [storedRegion 0 1]
           [Region.setRange (storedRegion 0 1) (mkRange [0%nat] 0 [0%nat] 1)]
           [storedRegion 3 5] (storedRegion 9 9) TypeError); reflexivity.
Defined.

(** X9: a region restored from a saved annotation whose [start] and [end]
    are numbers inside the text is materialized by the next pass, together
    with the regions already there, when these are inside the text too. *)
Theorem restored_region_materialized :
  forall (ext : Externals) (item : Item) (obj : Serialized)
         (fromModel : FromModel) (root : node) (s e : Z),
    keepsText ext ->
    Forall (inText root) (regions item) ->
    v_start (s_value obj) = JNum s -> v_end (s_value obj) = JNum e ->
    0 <= s <= e -> e < textLength root ->
    exists out root',
      handleUpdate ext root (regions (fromStateJSON item obj fromModel))
      = (out, root', None) /\
      Forall materialized out.
Proof.
  intros ext item obj fromModel root s e Hext Hall Hs He Hse Hlt.
  assert (Hin : Forall (inText root)
                  (regions (fromStateJSON item obj fromModel))).
  { unfold fromStateJSON.
    destruct (String.eqb (fm_type fromModel) "textarea"
              || String.eqb (fm_type fromModel) "choices")%bool;
      [exact Hall|].
    cbn. apply Forall_app. split; [exact Hall|].
    constructor; [|constructor]. exists s, e. cbn. auto. }
  destruct (handleUpdate_inText ext _ root Hext Hin)
    as (out & root' & E & Hm & _).
  eauto.
Qed.

Lemma restored_region_materialized_witness :
  exists out root',
    handleUpdate plainExternals rootAbCd
      (regions (fromStateJSON (labelled symbol)
                  (mkSerialized (JStr "r1") "label" JUndefined
                     (mkValue (JNum 0) JUndefined (JNum 2) JUndefined
                              (JStr "ab")))
                  labelsModel))
    = (out, root', None) /\
    Forall materialized out.
Proof.
  apply (restored_region_materialized plainExternals (labelled symbol)
           (mkSerialized (JStr "r1") "label" JUndefined
              (mkValue (JNum 0) JUndefined (JNum 2) JUndefined (JStr "ab")))
           labelsModel rootAbCd 0 2).
  - exact plainExternals_keepsText.
  - constructor.
  - reflexivity.
  - reflexivity.
  - lia.
  - reflexivity.
Defined.



(** ** What the capturer returns *)

Lemma normalize_text ext root text r root' n :
  normalize ext root text r = Normal (root', n) -> Normed.text n = text.
Proof.
  unfold normalize. destruct r as [r|]; [|discriminate].
  destruct (fromRange ext r root) as [xp|]; cbn [bind]; [|discriminate].
  destruct (splitBoundaries ext root r) as [split|]; cbn [bind];
    [|discriminate].
  destruct (toGlobalOffset _ _ _); [|discriminate].
  destruct (toGlobalOffset _ _ _); [|discriminate].
  now intros [= _ <-].
Qed.

Lemma captureLoop_result ext g val text : forall rs root acc out root',
  captureLoop ext g val text root rs acc = Normal (out, root') ->
  exists new,
    out = (acc ++ new)%list /\
    (List.length new <= List.length rs)%nat /\
    Forall (fun n => Normed.text n = text) new.
Proof.
  induction rs as [|r rs IH]; intros root acc out root'.
  - cbn. intros [= <- _]. exists []. rewrite app_nil_r.
    split; [reflexivity|]. split; [cbn; lia | constructor].
  - cbn [captureLoop].
    destruct (clampEnd root r) as [r1|]; cbn [bind]; [|discriminate].
    destruct (alignRange g root val (mainOffsets ext root) r1) as [r2|];
      cbn [bind]; [|discriminate].
    destruct (normalize ext root text r2) as [[root1 n]|e] eqn:E.
    + intros H. apply IH in H. destruct H as (new & -> & Hlen & Hall).
      exists (n :: new). rewrite <- app_assoc. cbn.
      split; [reflexivity|]. split; [lia|].
      constructor; [|exact Hall]. eapply normalize_text; eauto.
    + intros H. apply IH in H. destruct H as (new & -> & Hlen & Hall).
      exists new. split; [reflexivity|]. split; [cbn; lia | exact Hall].
Qed.

(** X11: when the capturer ends normally it returns at most one normalized
    range per range of the selection, in the order of the selection; every
    one of them carries as [text] the text of the whole selection, not the
    text of its own range; and a selection that was not collapsed is emptied
    afterwards. *)
Theorem captureDocumentSelection_result :
  forall (ext : Externals) (item : Item) (val : string) (root root' : node)
         (sel sel' : Selection) (out : list Normed.t),
    captureDocumentSelection ext item val root sel = Normal (out, root', sel') ->
    (List.length out <= List.length (ranges sel))%nat /\
    Forall (fun n => Normed.text n = selText sel) out /\
    sel' = (if isCollapsed sel then sel else removeAllRanges sel).
Proof.
  intros ext item val root root' sel sel' out. unfold captureDocumentSelection.
  destruct (isCollapsed sel).
  - intros [= <- _ <-]. split; [cbn; lia|]. split; [constructor | reflexivity].
  - destruct (captureLoop ext (granularityOf item) val (selText sel) root
                (ranges sel) []) as [[out1 root1]|e] eqn:E; cbn [bind];
      [|discriminate].
    intros [= <- _ <-].
    apply captureLoop_result in E. destruct E as (new & -> & Hlen & Hall).
    cbn [app]. auto.
Qed.

Lemma captureDocumentSelection_result_witness :
  exists out root' sel',
    captureDocumentSelection strictExternals (labelled symbol) valAbCd rootAbCd
      twoRanges = Normal (out, root', sel') /\
    (List.length out <= List.length (ranges twoRanges))%nat /\
    Forall (fun n => Normed.text n = selText twoRanges) out /\
    sel' = (if isCollapsed twoRanges then twoRanges
            else removeAllRanges twoRanges).
Proof.
  do 3 eexists. split; [reflexivity|].
  eapply (captureDocumentSelection_result strictExternals (labelled symbol)
            valAbCd rootAbCd).
  reflexivity.
Defined.

(** X12: the [try] block of the capturer does not cover the alignment: when
    [alignRange] throws for the first range of a selection that is not
    collapsed, the capturer throws the same exception, and so does the
    mouse-up handler of a text object whose selection is enabled; no region
    is created. *)
Theorem alignment_exception_escapes :
  forall (ext : Externals) (item : Item) (val : string) (root : node)
         (sel : Selection) (r r1 : Range) (rs : list Range) (e : exn),
    isCollapsed sel = false ->
    ranges sel = r :: rs ->
    clampEnd root r = Normal r1 ->
    alignRange (granularityOf item) root val (mainOffsets ext root) r1
    = Throw e ->
    captureDocumentSelection ext item val root sel = Throw e /\
    (selectionenabled item = true ->
     onMouseUp ext item val root sel = Throw e).
Proof.
  intros ext item val root sel r r1 rs e Hc Hr Hclamp Halign.
  assert (Hcap : captureDocumentSelection ext item val root sel = Throw e).
  { unfold captureDocumentSelection. rewrite Hc, Hr. cbn [captureLoop].
    rewrite Hclamp. cbn [bind]. rewrite Halign. reflexivity. }
  split; [exact Hcap|].
  intros Hen. unfold onMouseUp. rewrite Hen, Hcap. reflexivity.
Qed.

Lemma alignment_exception_escapes_witness :
  captureDocumentSelection (offsetExternals 0 2) (labelled word) valAbCd
    rootAbCd (mkSelection false [mkRange [0%nat] 0 [0%nat] 2] "ab")
  = Throw IndexSizeError /\
  (selectionenabled (labelled word) = true ->
   onMouseUp (offsetExternals 0 2) (labelled word) valAbCd rootAbCd
     (mkSelection false [mkRange [0%nat] 0 [0%nat] 2] "ab")
   = Throw IndexSizeError).
Proof.
  apply (alignment_exception_escapes (offsetExternals 0 2) (labelled word)
           valAbCd rootAbCd
           (mkSelection false [mkRange [0%nat] 0 [0%nat] 2] "ab")
           (mkRange [0%nat] 0 [0%nat] 2) (mkRange [0%nat] 0 [0%nat] 2) []
           IndexSizeError); reflexivity.
Defined.

(** ** What a mouse-up leaves *)




Lemma captureDocumentSelection_selection ext item val root sel out root' sel' :
  captureDocumentSelection ext item val root sel = Normal (out, root', sel') ->
  sel' = (if isCollapsed sel then sel else removeAllRanges sel).
Proof.
  unfold captureDocumentSelection. destruct (isCollapsed sel).
  - now intros [= _ _ <-].
  - destruct (captureLoop _ _ _ _ _ _ _) as [[out1 root1]|e]; cbn [bind];
      [|discriminate].
    now intros [= _ _ <-].
Qed.

(** X14: a mouse-up on a text object whose selection is disabled touches
    nothing: the capturer does not run, so the tree and the platform
    selection are as they were.  With the selection enabled, a mouse-up that
    ends normally on a selection that is not collapsed empties the platform
    selection, also when no state is active and no region is created. *)
Theorem onMouseUp_selection :
  forall (ext : Externals) (item : Item) (val : string) (root : node)
         (sel : Selection) (m : MouseUp),
    onMouseUp ext item val root sel = Normal m ->
    (selectionenabled item = false ->
     m = mkMouseUp item root sel false) /\
    (selectionenabled item = true -> isCollapsed sel = false ->
     m_selection m = removeAllRanges sel).
Proof.
  intros ext item val root sel m. unfold onMouseUp.
  destruct (selectionenabled item); cbn [negb].
  - destruct (captureDocumentSelection ext item val root sel)
      as [[[selected root1] sel1]|e] eqn:Hcap; cbn [bind fst snd];
      [|discriminate].
    apply captureDocumentSelection_selection in Hcap. rename Hcap into Hsel.
    intros H. split; [discriminate|]. intros _ Hc. rewrite Hc in Hsel.
    destruct (activeStates item) as [[|s ss]|] eqn:Hact;
      try (injection H as <-; exact Hsel).
    destruct selected as [|first rest]; [injection H as <-; exact Hsel|].
    destruct (addRegion item first) as [[item1 [r|]]|]; cbn in H;
      try discriminate.
    injection H as <-. exact Hsel.
  - intros [= <-]. split; [reflexivity | discriminate].
Qed.

Lemma onMouseUp_selection_witness :
  exists m,
    onMouseUp plainExternals (mkItem true symbol [] None) valAbCd rootAbCd
      twoRanges = Normal m /\
    (selectionenabled (mkItem true symbol [] None) = false ->
     m = mkMouseUp (mkItem true symbol [] None) rootAbCd twoRanges false) /\
    (selectionenabled (mkItem true symbol [] None) = true ->
     isCollapsed twoRanges = false ->
     m_selection m = removeAllRanges twoRanges).
Proof.
  eexists. split; [reflexivity|].
  apply (onMouseUp_selection plainExternals (mkItem true symbol [] None)
           valAbCd rootAbCd twoRanges).
  reflexivity.
Defined.

(** ** Looking regions up *)

Lemma strictEq_eq a b : strictEq a b = true <-> a = b.
Proof.
  destruct a as [x | s |], b as [y | t |]; cbn; split;
    try discriminate; try reflexivity.
  - intros H. apply Z.eqb_eq in H. now subst.
  - intros [= ->]. apply Z.eqb_refl.
  - intros H. apply String.eqb_eq in H. now subst.
  - intros [= ->]. apply String.eqb_refl.
Qed.

Lemma findRegion_test start startOffset end_ endOffset r :
  (strictEq (Region.start r) start && strictEq (Region.end_ r) end_
   && strictEq (Region.startOffset r) startOffset
   && strictEq (Region.endOffset r) endOffset)%bool = true
  <-> sameKey start startOffset end_ endOffset r.
Proof.
  unfold sameKey. rewrite !andb_true_iff, !strictEq_eq. tauto.
Qed.

(** X15: [findRegion] after [createRegion]: looking up the four fields of a
    region that has just been created finds a region with these fields; it
    is the new region when no region had them before, and otherwise the
    earliest region that had them, since [createRegion] adds the new region
    whether or not one with the same fields exists. *)
Theorem findRegion_createRegion :
  forall (item : Item) (p : Region.t),
    let item' := fst (createRegion item p) in
    let found :=
      findRegion item' (Region.start p) (Region.startOffset p)
        (Region.end_ p) (Region.endOffset p) in
    (exists r,
        found = Some r /\ In r (regions item') /\
        sameKey (Region.start p) (Region.startOffset p) (Region.end_ p)
          (Region.endOffset p) r) /\
    match findRegion item (Region.start p) (Region.startOffset p)
            (Region.end_ p) (Region.endOffset p) with
    | Some r0 => found = Some r0
    | None => found = Some p
    end /\
    List.length (regions item') = S (List.length (regions item)).
Proof.
  intros item p item' found. subst item' found.
  unfold findRegion, createRegion. cbn [fst regions withRegions].
  set (test := fun r : Region.t =>
                 (strictEq (Region.start r) (Region.start p)
                  && strictEq (Region.end_ r) (Region.end_ p)
                  && strictEq (Region.startOffset r) (Region.startOffset p)
                  && strictEq (Region.endOffset r) (Region.endOffset p))%bool).
  assert (Hp : test p = true).
  { subst test. cbv beta. apply findRegion_test. unfold sameKey. auto. }
  assert (Hfind : find test (regions item ++ [p]) =
                  match find test (regions item) with
                  | Some r0 => Some r0
                  | None => Some p
                  end).
  { induction (regions item) as [|r rs IH]; cbn.
    - now rewrite Hp.
    - destruct (test r); [reflexivity | exact IH]. }
  split; [|split].
  - destruct (find test (regions item ++ [p])) as [r|] eqn:E.
    + exists r. split; [reflexivity|].
      apply find_some in E. destruct E as [Hin Ht]. split; [exact Hin|].
      subst test. cbv beta in Ht. now apply findRegion_test in Ht.
    + rewrite Hfind in E. destruct (find test (regions item)); discriminate.
  - rewrite Hfind. now destruct (find test (regions item)).
  - rewrite length_app. cbn. lia.
Qed.

(** ** Word alignment, in general *)

(** The index [alignStart] takes is that of a separator, and no separator
    lies after it. *)
Lemma startIndex_spec s :
  0 <= startIndex s ->
  (exists c, charAt s (startIndex s) = Some c /\ isSeparator c) /\
  forall j c, startIndex s < j < strlen s -> charAt s j = Some c ->
              ~ isSeparator c.
Proof.
  intros Hpos. rewrite startIndex_max in *.
  destruct (lastIndexOf_spec s space) as [[Es As] | (Rs & Cs & As)];
  destruct (lastIndexOf_spec s lf) as [[En An] | (Rn & Cn & An)];
    try lia.
  - split.
    + exists lf. rewrite Es, Z.max_r by lia. split; [exact Cn | now right].
    + intros j c Hj Hc [-> | ->].
      * apply (As j); [lia | exact Hc].
      * apply (An j); [lia | exact Hc].
  - split.
    + exists space. rewrite En, Z.max_l by lia. split; [exact Cs | now left].
    + intros j c Hj Hc [-> | ->].
      * apply (As j); [lia | exact Hc].
      * apply (An j); [lia | exact Hc].
  - split.
    + destruct (Z.max_spec (lastIndexOf s space) (lastIndexOf s lf))
        as [[_ ->] | [_ ->]].
      * exists lf. split; [exact Cn | now right].
      * exists space. split; [exact Cs | now left].
    + intros j c Hj Hc [-> | ->].
      * apply (As j); [lia | exact Hc].
      * apply (An j); [lia | exact Hc].
Qed.

(** X16: word alignment between separators.  Let the text be rendered by
    any tree and the raw range lie at the global offsets [start < end].
    When the last separator (space or line break) before [start] is at an
    index [i > 0], and the first separator from [end] on is a space, [k]
    characters after [end], [alignWord] returns a range with global offsets
    [(i + 1, end + k)]: it starts right after the separator at [i], ends at
    the space, and has no separator between [i + 1] and [start] nor between
    [end] and [end + k]. *)
Theorem alignWord_snaps_to_word :
  forall (root : node) (val : string) (r : Range) (start end_ k : Z),
    flatText root = val ->
    validRange root r ->
    globalOffsets root r = Some (start, end_) ->
    0 <= start < end_ -> end_ < strlen val ->
    0 < startIndex (substring val 0 start) ->
    indexOf (substring val end_ (strlen val)) space = k -> 0 <= k ->
    (indexOf (substring val end_ (strlen val)) lf = -1 \/
     k < indexOf (substring val end_ (strlen val)) lf) ->
    let i := startIndex (substring val 0 start) in
    exists r2,
      alignWord root val r start end_ = Normal r2 /\
      globalOffsets root r2 = Some (i + 1, end_ + k) /\
      i + 1 <= start /\
      (exists c, charAt val i = Some c /\ isSeparator c) /\
      charAt val (end_ + k) = Some space /\
      (forall j c, (i < j < start \/ end_ <= j < end_ + k) ->
                   charAt val j = Some c -> ~ isSeparator c).
Proof.
  intros root val r start end_ k Hval [Hvs Hve] Hg Hse Hend Hsi Hk Hk0 Hnl i.
  apply globalOffsets_Some in Hg. destruct Hg as [Hgs Hge].
  subst i.
  assert (Hll : strlen (substring val 0 start) = start)
    by (rewrite strlen_substring; lia).
  assert (Hlr : strlen (substring val end_ (strlen val)) = strlen val - end_)
    by (rewrite strlen_substring; lia).
  assert (Hcl : forall j, 0 <= j < start ->
                  charAt (substring val 0 start) j = charAt val j).
  { intros j Hj. now rewrite charAt_substring by lia. }
  assert (Hcr : forall j, 0 <= j < strlen val - end_ ->
                  charAt (substring val end_ (strlen val)) j
                  = charAt val (end_ + j)).
  { intros j Hj. now rewrite charAt_substring by lia. }
  destruct (alignStart_moved root val r r start end_ Hval ltac:(lia) Hsi
              Hve Hge ltac:(lia))
    as (r1 & E1 & Hvs1 & Hgs1 & Hve1 & Hge1).
  remember (substring val 0 start) as strleft eqn:Hleft.
  remember (substring val end_ (strlen val)) as strright eqn:Hright.
  pose proof (startIndex_upper strleft) as Hup.
  destruct (startIndex_spec strleft ltac:(lia)) as [Hsep Hfree].
  remember (startIndex strleft) as i eqn:Hi.
  destruct (indexOf_spec strright space) as [[E _] | (Rk & Ck & Fk)];
    [lia|]. rewrite Hk in Rk, Ck, Fk.
  assert (Hfn : forall j, 0 <= j < k -> charAt strright j <> Some lf).
  { destruct (indexOf_spec strright lf) as [[_ A] | (Rn & _ & A)].
    - intros j Hj. apply A. lia.
    - intros j Hj. apply A. lia. }
  assert (Hcs : charAt val (end_ + k) = Some space).
  { rewrite <- Hcr by lia. exact Ck. }
  assert (Hmove : endIndex strright end_ = Some (k + end_) ->
             exists r2,
               alignEnd root val r r1 end_ = Normal r2 /\
               toGlobalOffset root (startContainer r2) (startOffset r2)
               = Some (i + 1) /\
               toGlobalOffset root (endContainer r2) (endOffset r2)
               = Some (end_ + k)).
  { intros Hei. rewrite Hright in Hei.
    destruct (alignEnd_moved root val r r1 end_ (k + end_) space (i + 1)
                Hval ltac:(lia) Hei ltac:(lia)
                ltac:(now rewrite Z.add_comm) ltac:(discriminate)
                Hvs1 Hgs1 ltac:(lia))
      as (r2 & E2 & _ & Hgs2 & _ & Hge2).
    exists r2. rewrite (Z.add_comm end_ k). auto. }
  assert (Hend2 : exists r2,
             alignEnd root val r r1 end_ = Normal r2 /\
             toGlobalOffset root (startContainer r2) (startOffset r2)
             = Some (i + 1) /\
             toGlobalOffset root (endContainer r2) (endOffset r2)
             = Some (end_ + k)).
  { destruct Hnl as [Hn | Hn].
    - apply Hmove. rewrite endIndex_only_space by lia. now rewrite Hk.
    - destruct (Z.eq_dec k 0) as [Hz | Hnz].
      + exists r1. rewrite alignEnd_unchanged.
        * rewrite Hz, Z.add_0_r. auto.
        * right. rewrite <- Hright. apply endIndex_space_first; lia.
        * lia.
      + apply Hmove. rewrite endIndex_both by lia. rewrite Hk. f_equal. lia. }
  destruct Hend2 as (r2 & E2 & Hgs2 & Hge2).
  exists r2. unfold alignWord. rewrite E1. cbn [bind].
  split; [exact E2|]. split; [apply globalOffsets_Some; auto|].
  split; [lia|]. split.
  - destruct Hsep as (c & Hc & Hs). exists c. split; [|exact Hs].
    rewrite <- Hcl by lia. exact Hc.
  - split; [exact Hcs|].
    intros j c [Hj | Hj] Hc.
    + apply (Hfree j c); [lia|]. rewrite Hcl by lia. exact Hc.
    + assert (Hc' : charAt strright (j - end_) = Some c).
      { rewrite Hcr by lia. now replace (end_ + (j - end_)) with j by lia. }
      intros [-> | ->].
      * apply (Fk (j - end_)); [lia | exact Hc'].
      * apply (Hfn (j - end_)); [lia | exact Hc'].
Qed.

Lemma alignWord_snaps_to_word_witness :
  exists r2,
    alignWord rootFox2 valFox (mkRange [0%nat] 5 [1%nat] 1) 5 8 = Normal r2 /\
    globalOffsets rootFox2 r2
    = Some (startIndex (substring valFox 0 5) + 1, 8 + 1) /\
    startIndex (substring valFox 0 5) + 1 <= 5 /\
    (exists c, charAt valFox (startIndex (substring valFox 0 5)) = Some c /\
               isSeparator c) /\
    charAt valFox (8 + 1) = Some space /\
    (forall j c,
        (startIndex (substring valFox 0 5) < j < 5 \/ 8 <= j < 8 + 1) ->
        charAt valFox j = Some c -> ~ isSeparator c).
Proof.
  apply (alignWord_snaps_to_word rootFox2 valFox
           (mkRange [0%nat] 5 [1%nat] 1) 5 8 1).
  - reflexivity.
  - split; vm_compute; split; discriminate.
  - reflexivity.
  - lia.
  - reflexivity.
  - reflexivity.
  - reflexivity.
  - lia.
  - left. reflexivity.
Defined.

Lemma alignWord_aligned_witness :
  exists r2,
    alignWord rootFox2 valFox (mkRange [0%nat] 4 [1%nat] 2) 4 9 = Normal r2 /\
    globalOffsets rootFox2 r2 = Some (4, 9).
Proof.
  apply (alignWord_aligned rootFox2 valFox (mkRange [0%nat] 4 [1%nat] 2) 4 9).
  - reflexivity.
  - split; vm_compute; split; discriminate.
  - reflexivity.
  - lia.
  - vm_compute. discriminate.
  - right. exists space. split; [reflexivity | now left].
  - right. reflexivity.
Defined.


(** X19: the first word.  When no separator precedes the start boundary
    ([start > 0], both searches give -1), [alignWord] first moves the start
    to offset 0 of the node the raw range starts in, which is the start of
    the text only when that node is the first one. *)
Theorem alignStart_first_word :
  forall (root : node) (val : string) (r r2 : Range) (start : Z) (n : node),
    0 < start <= strlen val ->
    startIndex (substring val 0 start) = -1 ->
    nodeAt root (startContainer r) = Some n ->
    exists r',
      alignStart root val r r2 start = Normal r' /\
      startContainer r' = startContainer r /\ startOffset r' = 0.
Proof.
  intros root val r r2 start n Hstart Hidx Hn.
  rewrite alignStart_unfold. cbv zeta.
  rewrite strlen_substring by lia. rewrite Z.sub_0_r, Hidx.
  replace (start >? 0) with true by (symmetry; apply Z.gtb_lt; lia).
  change (-1 =? -1) with true. change (-1 >? 0) with false.
  unfold setStart, checkBoundary. rewrite Hn.
  assert (Hlen : 0 <= nodeLength n)
    by (destruct n; cbn; [apply strlen_nonneg | lia]).
  change (0 <=? 0) with true.
  replace (0 <=? nodeLength n) with true by (symmetry; apply Z.leb_le; lia).
  cbn [andb bind].
  destruct (bpCompare (startContainer r) 0 (endContainer r2) (endOffset r2));
    eexists; repeat split.
Qed.

Lemma alignStart_first_word_witness :
  exists r',
    alignStart rootAbcdSplit "abcd" (mkRange [1%nat] 1 [1%nat] 2)
      (mkRange [1%nat] 1 [1%nat] 2) 3 = Normal r' /\
    startContainer r' = startContainer (mkRange [1%nat] 1 [1%nat] 2) /\
    startOffset r' = 0.
Proof.
  apply (alignStart_first_word rootAbcdSplit "abcd"
           (mkRange [1%nat] 1 [1%nat] 2) (mkRange [1%nat] 1 [1%nat] 2) 3
           (Text "cd")).
  - split; [lia | vm_compute; discriminate].
  - reflexivity.
  - reflexivity.
Defined.

(** X20: [idx] of the end boundary stays unassigned exactly when both
    searches find something and one of them finds it at the boundary itself;
    the end boundary is then left where it is. *)
Theorem endIndex_unassigned :
  forall (root : node) (val : string) (r r2 : Range) (end_ : Z),
    let strright := substring val end_ (strlen val) in
    (endIndex strright end_ = None <->
     (indexOf strright space = 0 /\ indexOf strright lf <> -1) \/
     (indexOf strright lf = 0 /\ indexOf strright space <> -1)) /\
    (endIndex strright end_ = None ->
     alignEnd root val r r2 end_ = Normal r2).
Proof.
  intros root val r r2 end_ strright. split.
  - unfold endIndex.
    pose proof (indexOf_range strright space) as Hs.
    pose proof (indexOf_range strright lf) as Hn.
    destruct (Z.eqb_spec (indexOf strright lf) (-1)) as [En | En];
    destruct (Z.eqb_spec (indexOf strright space) (-1)) as [Es | Es];
    destruct (indexOf strright lf >? 0) eqn:Gn;
    destruct (indexOf strright space >? 0) eqn:Gs;
      cbn [andb option_map]; rewrite ?Z.gtb_ltb in *;
      rewrite ?Z.ltb_lt, ?Z.ltb_ge in *;
      (split; [try discriminate; intros _; lia
              | intros [[? ?] | [? ?]]; try lia; try reflexivity]).
  - intros H. rewrite alignEnd_unfold. cbv zeta. fold strright.
    rewrite H. now destruct (strlen strright >? 0).
Qed.

Lemma endIndex_unassigned_witness :
  alignEnd rootWords valWords (mkRange [0%nat] 0 [0%nat] 1)
    (mkRange [0%nat] 0 [0%nat] 1) 1
  = Normal (mkRange [0%nat] 0 [0%nat] 1).
Proof.
  apply (proj2 (endIndex_unassigned rootWords valWords
                  (mkRange [0%nat] 0 [0%nat] 1)
                  (mkRange [0%nat] 0 [0%nat] 1) 1)).
  reflexivity.
Defined.

(** ** Rendering a plain text *)

Lemma split_nonempty c s : split c s <> [].
Proof.
  destruct s as [|a s]; cbn; [discriminate|].
  destruct (Ascii.eqb a c); [discriminate|].
  destruct (split c s); discriminate.
Qed.

Lemma join_cons sep x rest :
  rest <> [] -> join sep (x :: rest) = (x ++ sep ++ join sep rest)%string.
Proof. destruct rest; [contradiction | reflexivity]. Qed.

(** Joining the pieces with the separator gives the string back. *)
Lemma join_split c s : join (String c EmptyString) (split c s) = s.
Proof.
  induction s as [|a s IH]; [reflexivity|]. cbn [split].
  destruct (Ascii.eqb_spec a c) as [-> | Hne].
  - rewrite join_cons by apply split_nonempty. cbn. now rewrite IH.
  - pose proof (split_nonempty c s) as Hn.
    destruct (split c s) as [|seg rest]; [contradiction|].
    destruct rest as [|y rest]; cbn in *; now rewrite IH.
Qed.

Lemma join_newline_split s : join newline (split lf s) = s.
Proof. exact (join_split lf s). Qed.

Lemma flatTexts_app l1 l2 :
  flatTexts (l1 ++ l2) = (flatTexts l1 ++ flatTexts l2)%string.
Proof.
  induction l1 as [|c l1 IH]; cbn; [reflexivity|].
  fold (flatTexts (l1 ++ l2)). fold (flatTexts l1).
  rewrite IH. clear. induction (flatText c); cbn; congruence.
Qed.

Lemma string_app_nil (s : string) : (s ++ "")%string = s.
Proof. induction s; cbn; congruence. Qed.

Lemma flatTexts_rendered pieces :
  flatTexts (renderedChildren pieces) = join newline pieces.
Proof.
  induction pieces as [|x rest IH]; [reflexivity|].
  cbn [renderedChildren]. rewrite flatTexts_app.
  assert (Hx : flatTexts (match x with EmptyString => [] | _ => [Text x] end)
               = x).
  { destruct x; cbn; [reflexivity|]. now rewrite string_app_nil. }
  rewrite Hx. destruct rest as [|y rest].
  - cbn. apply string_app_nil.
  - rewrite join_cons by discriminate. rewrite <- IH. reflexivity.
Qed.

Lemma lastLeafIn_app l1 l2 :
  lastLeafIn (l1 ++ l2) =
  match lastLeafIn l2 with
  | Some b => Some b
  | None => lastLeafIn l1
  end.
Proof.
  induction l1 as [|c l1 IH]; cbn.
  - now destruct (lastLeafIn l2).
  - rewrite IH. now destruct (lastLeafIn l2).
Qed.

Lemma lastLeafIn_rendered pieces :
  pieces <> [] ->
  lastLeafIn (renderedChildren pieces) =
  match last pieces EmptyString with
  | EmptyString =>
      match pieces with
      | [_] => None
      | _ => Some false
      end
  | _ => Some true
  end.
Proof.
  induction pieces as [|x rest IH]; [contradiction|]. intros _.
  cbn [renderedChildren]. rewrite lastLeafIn_app.
  destruct rest as [|y rest].
  - cbn. now destruct x.
  - specialize (IH ltac:(discriminate)).
    change (last (x :: y :: rest) EmptyString) with (last (y :: rest) EmptyString).
    cbn [lastLeafIn]. rewrite IH.
    change (lastLeaf br) with (Some false).
    destruct (last (y :: rest) EmptyString); [|reflexivity].
    now destruct rest.
Qed.

Lemma split_single c s x : split c s = [x] -> x = s.
Proof.
  intros H. pose proof (join_split c s) as J. rewrite H in J. exact J.
Qed.

Lemma last_split c s :
  last (split c s) EmptyString = EmptyString <->
  s = EmptyString \/ lastChar s = Some c.
Proof.
  induction s as [|a s IH].
  - cbn. tauto.
  - cbn [split lastChar]. pose proof (split_nonempty c s) as Hn.
    destruct (Ascii.eqb_spec a c) as [-> | Hne].
    + destruct (split c s) as [|seg rest] eqn:E; [contradiction|].
      change (last (EmptyString :: seg :: rest) EmptyString)
        with (last (seg :: rest) EmptyString).
      rewrite IH. destruct s; [tauto|].
      split; [intros [H | H]; [discriminate | now right]
             | intros [H | H]; [discriminate | now right]].
    + destruct (split c s) as [|seg rest] eqn:E; [contradiction|].
      destruct rest as [|y rest].
      * apply split_single in E. subst seg. cbn.
        split; [discriminate|]. intros [H | H]; [discriminate|].
        exfalso. destruct s; [congruence|].
        assert (Hl : last [String a0 s] EmptyString = EmptyString
                     <-> String a0 s = EmptyString \/
                         lastChar (String a0 s) = Some c) by exact IH.
        cbn [last] in Hl. destruct Hl as [_ Hl].
        specialize (Hl (or_intror H)). discriminate.
      * change (last (String a seg :: y :: rest) EmptyString)
          with (last (seg :: y :: rest) EmptyString).
        rewrite IH. destruct s; [discriminate E|].
        split; [intros [H | H]; [discriminate | now right]
               | intros [H | H]; [discriminate | now right]].
Qed.

(** X21: rendering a plain text gives a tree whose flat text, each BR
    counting as a line feed, is the text itself, whatever the text: the text
    has as many characters as the tree contributes to global offsets. *)
Theorem renderRoot_flatText :
  forall (val : string) (root : node),
    renderRoot val = Some root ->
    flatText root = val /\ textLength root = strlen val.
Proof.
  intros val root. unfold renderRoot.
  destruct (isPlain val); [|discriminate]. intros [= <-].
  assert (H : flatText (div (renderedChildren (split lf val))) = val).
  { unfold div. rewrite flatText_Elem. cbn [isBR String.eqb Ascii.eqb Bool.eqb].
    change (isBR "DIV") with false. cbn [append].
    rewrite flatTexts_rendered. apply join_newline_split. }
  split; [exact H|]. now rewrite <- flatText_length, H.
Qed.

Lemma renderRoot_flatText_witness :
  flatText rootAbCd = valAbCd /\ textLength rootAbCd = strlen valAbCd.
Proof.
  apply (renderRoot_flatText valAbCd rootAbCd). reflexivity.
Defined.

(** X22: in the tree rendered for a plain text, [findNode] resolves every
    offset from 0 up to the length of the text, the length itself included
    exactly when the text is not empty and does not end in a line feed;
    nothing beyond the length is resolved. *)
Theorem renderRoot_findNode :
  forall (val : string) (root : node) (g : Z),
    renderRoot val = Some root ->
    0 <= g ->
    (findNode root g <> None <->
     g < strlen val \/
     (g = strlen val /\ exists c, lastChar val = Some c /\ c <> lf)).
Proof.
  intros val root g Hr H0.
  assert (Hlen : textLength root = strlen val)
    by (unfold renderRoot in Hr; destruct (isPlain val); [|discriminate];
        injection Hr as <-;
        rewrite <- flatText_length; unfold div; rewrite flatText_Elem;
        change (isBR "DIV") with false; cbn [append];
        now rewrite flatTexts_rendered, join_newline_split).
  assert (Hlast : lastLeaf root = Some true
                  <-> exists c, lastChar val = Some c /\ c <> lf).
  { unfold renderRoot in Hr. destruct (isPlain val); [|discriminate].
    injection Hr as <-. unfold div. rewrite lastLeaf_Elem.
    change (isBR "DIV") with false.
    rewrite lastLeafIn_rendered by apply split_nonempty.
    pose proof (last_split lf val) as Hs.
    destruct (last (split lf val) EmptyString) as [|a s] eqn:E.
    - split.
      + destruct (split lf val) as [|x [|y rest]]; discriminate.
      + intros (c & Hc & Hne). destruct Hs as [Hs _].
        destruct (Hs eq_refl) as [-> | Hl]; [discriminate|]. congruence.
    - split; [|reflexivity]. intros _.
      destruct (lastChar val) as [c|] eqn:Ec.
      + exists c. split; [reflexivity|]. intros ->.
        destruct Hs as [_ Hs]. specialize (Hs (or_intror eq_refl)).
        discriminate.
      + destruct val as [|b v]; [cbn in E; discriminate|].
        exfalso. clear -Ec. revert b Ec.
        induction v as [|b' v IH]; intros b Ec; cbn in Ec; [discriminate|].
        exact (IH b' Ec). }
  unfold findNode.
  split.
  - destruct (traverse root g) as [p l | left] eqn:E; [|congruence].
    intros _. pose proof (traverse_Found_le _ _ _ _ H0 E) as Hle.
    destruct (traverse_Found_end _ _ _ _ H0 E) as [Hlt | Hl]; [left; lia|].
    destruct (Z.eq_dec g (strlen val)); [right | left; lia].
    split; [assumption|]. now apply Hlast.
  - intros [Hlt | [-> Hl]].
    + destruct (findNode_inside root g ltac:(lia)) as (p & l & E).
      unfold findNode in E.
      destruct (traverse root g); [discriminate | discriminate].
    + apply Hlast in Hl. rewrite <- Hlen.
      destruct (findNode_at_end root Hl) as (p & l & E).
      unfold findNode in E.
      destruct (traverse root (textLength root)); discriminate.
Qed.

Lemma renderRoot_findNode_witness :
  findNode rootAbBr 3 <> None <->
  3 < strlen ("ab" ++ newline)%string \/
  (3 = strlen ("ab" ++ newline)%string /\
   exists c, lastChar ("ab" ++ newline)%string = Some c /\ c <> lf).
Proof.
  apply (renderRoot_findNode ("ab" ++ newline)%string rootAbBr 3).
  - reflexivity.
  - lia.
Defined.

Lemma countChar_nonneg c s : 0 <= countChar c s.
Proof.
  induction s as [|a s IH]; cbn; [lia|]. destruct (Ascii.eqb a c); lia.
Qed.

Lemma strlen_join_split c sep s :
  strlen (join sep (split c s)) = strlen s + (strlen sep - 1) * countChar c s.
Proof.
  induction s as [|a s IH]; [cbn; lia|]. cbn [split countChar].
  rewrite strlen_cons. pose proof (split_nonempty c s) as Hn.
  destruct (Ascii.eqb a c).
  - rewrite join_cons by exact Hn. rewrite !strlen_append, IH.
    change (strlen "") with 0. lia.
  - destruct (split c s) as [|seg rest]; [contradiction|].
    destruct rest as [|y rest].
    + cbn [join] in *. rewrite strlen_cons, IH. lia.
    + rewrite join_cons in * by discriminate.
      change (String a seg ++ sep ++ join sep (y :: rest))%string
        with (String a (seg ++ sep ++ join sep (y :: rest))).
      rewrite strlen_cons, IH. lia.
Qed.

Lemma charAt_join_split c sep s :
  (forall i, charAt sep i <> Some c) ->
  forall i, charAt (join sep (split c s)) i <> Some c.
Proof.
  intros Hsep. induction s as [|a s IH]; intros i.
  - cbn. unfold charAt. destruct (i <? 0); [discriminate|].
    destruct (Z.to_nat i); discriminate.
  - cbn [split]. pose proof (split_nonempty c s) as Hn.
    destruct (Ascii.eqb_spec a c) as [-> | Hne].
    + rewrite join_cons by exact Hn. cbn [append].
      destruct (Z.lt_ge_cases i (strlen sep)) as [Hlt | Hge].
      * rewrite charAt_app_l by exact Hlt. apply Hsep.
      * rewrite charAt_app_r by exact Hge. apply IH.
    + assert (E : join sep (match split c s with
                              | seg :: rest => String a seg :: rest
                              | [] => [String a EmptyString]
                              end)
                  = String a (join sep (split c s))).
      { destruct (split c s) as [|seg rest]; [contradiction|].
        destruct rest; reflexivity. }
      rewrite E. destruct (Z.compare_spec i 0) as [-> | Hneg | Hpos].
      * cbv. congruence.
      * unfold charAt.
        now replace (i <? 0) with true by (symmetry; apply Z.ltb_lt; lia).
      * rewrite charAt_cons by lia. apply IH.
Qed.

(** X23: the markup [render] produces has no line feed left in it, and it
    is four characters longer than the text for each line feed of the
    text. *)
Theorem renderMarkup_line_breaks :
  forall (val : string),
    (forall i, charAt (renderMarkup val) i <> Some lf) /\
    strlen (renderMarkup val) = strlen val + 4 * countChar lf val.
Proof.
  intros val. unfold renderMarkup. split.
  - apply charAt_join_split. intros i. unfold charAt.
    destruct (i <? 0); [discriminate|].
    destruct (Z.to_nat i) as [|[|[|[|[|n]]]]]; cbv; congruence.
  - rewrite strlen_join_split. reflexivity.
Qed.
